(** * aes_dump: region discovery and AES-256 key carving in a memory dump

    A shallow embedding of [aes_dump.py].  The dump file is a list of bytes
    (the read-only [mmap] of the source), offsets are Python integers ([Z]),
    a region is the triple [(start, end, size)] the finders append, and the
    result of the key scanner is a finite set of byte strings.  Python
    exceptions are explicit: a computation returns [Ok v] or [Raise e]. *)

From Stdlib Require Import ZArith Uint63 Floats Lia.
From Stdlib.Strings Require Import Byte.
From stdpp Require Import base option list numbers countable sorting gmap.

Local Open Scope Z_scope.

(** ** Bytes *)

Abbreviation bytes := (list byte).

(* Equality of bytes is decided on their numbers. *)
#[global] Instance byte_eq_dec : EqDecision byte := fun x y =>
  match N.eq_dec (Byte.to_N x) (Byte.to_N y) with
  | left e =>
      left (f_equal (default x)
              (eq_trans (eq_sym (Byte.of_to_N x))
                 (eq_trans (f_equal Byte.of_N e) (Byte.of_to_N y))))
  | right n => right (fun e => n (f_equal Byte.to_N e))
  end.
#[global] Instance byte_countable : Countable byte :=
  inj_countable Byte.to_N Byte.of_N Byte.of_to_N.

(** ** Exceptions *)

Inductive exn : Type :=
  | ValueError    (* mmap of an empty file *)
  | IndexError    (* mm[i] out of range *)
  | ParserError   (* an exception raised by MinidumpFile.parse *)
  | OutOfFuel.    (* the model's loop budget ran out; never the source's *)

Inductive result (A : Type) : Type :=
  | Ok (a : A)
  | Raise (e : exn).
Arguments Ok {A} a.
Arguments Raise {A} e.

#[global] Instance result_ret : MRet result := fun _ a => Ok a.
#[global] Instance result_bind : MBind result := fun _ _ f m =>
  match m with
  | Ok a => f a
  | Raise e => Raise e
  end.

(** ** Configuration constants (lines 11-24) *)

Definition MIN_NULL_START_REGION_SIZE : Z := 10000.
Definition MIN_NULL_END_REGION_SIZE : Z := 10000.
Definition MAX_REGION_SIZE : Z := 2 * 1024 * 1024.
Definition AVERAGE_REGION_SIZE : Z := 100000.
Definition MIN_REGION_SIZE : Z := 25000.
Definition AES_KEY_SIZE : Z := 32.
Definition LOOKAHEAD : Z := 300.
(* 4.7 as Python reads it: the nearest binary64 value *)
Definition AES_ENTROPY_THRESHOLD : float := 0x1.2cccccccccccdp+2%float.
Definition REQUIRED_REPEATS : Z := 10.
Definition MAX_INITIAL_SCAN_IN_REGION : Z := 500.
Definition PRE_NULL_CHECK : Z := 64.

Definition NULL_BLOCK_START : bytes :=
  replicate (Z.to_nat MIN_NULL_START_REGION_SIZE) x00.
Definition NULL_BLOCK_END : bytes :=
  replicate (Z.to_nat MIN_NULL_END_REGION_SIZE) x00.

Inductive ScanMode : Type := Forward | Backward.

(** ** The Python operations on [mmap] and [bytes] the source uses *)

Definition len (mm : bytes) : Z := Z.of_nat (length mm).

(** [mm[i]]: a negative index counts from the end, an index out of range
    raises [IndexError]. *)
Definition getitem (mm : bytes) (i : Z) : result byte :=
  let k := if i <? 0 then i + len mm else i in
  if k <? 0 then Raise IndexError
  else match mm !! Z.to_nat k with
       | Some b => Ok b
       | None => Raise IndexError
       end.

(** How a slice bound is adjusted to the length of the sequence. *)
Definition adjust_index (n i : Z) : Z :=
  if i <? 0 then Z.max 0 (i + n) else Z.min i n.

(** [mm[start:stop]]: never raises, bounds are clipped. *)
Definition slice (mm : bytes) (start stop : Z) : bytes :=
  let n := len mm in
  let a := adjust_index n start in
  let b := adjust_index n stop in
  take (Z.to_nat (b - a)) (drop (Z.to_nat a) mm).

Fixpoint startswith (l sub : bytes) : bool :=
  match sub, l with
  | [], _ => true
  | _ :: _, [] => false
  | s :: sub', b :: l' => if Byte.eqb b s then startswith l' sub' else false
  end.

(** The search of [mm.find] over the bytes from offset [i] on: the lowest
    offset at which [sub] occurs, or -1. *)
Fixpoint find_from (sub l : bytes) (i : Z) : Z :=
  if startswith l sub then i
  else match l with
       | [] => -1
       | _ :: l' => find_from sub l' (i + 1)
       end.

(** [mm.find(sub, start)]. *)
Definition find (mm sub : bytes) (start : Z) : Z :=
  let s := adjust_index (len mm) start in
  find_from sub (drop (Z.to_nat s) mm) s.

(** [data.count(b)] for a single byte [b]. *)
Definition count (data : bytes) (b : byte) : Z :=
  Z.of_nat (length (filter (fun x => x = b) data)).

(** ** Regions: the triples [(region_start, region_end, region_size)] *)

Record Region : Type := mkRegion {
  region_start : Z;
  region_end : Z;
  region_size : Z
}.

(** ** [shannon_entropy] (lines 32-43)

    Python floats are IEEE binary64, here the primitive floats.  [math.log2]
    is the C library's function and is taken as a parameter. *)

Definition float_of_int (z : Z) : float := PrimFloat.of_uint63 (Uint63.of_Z z).

(** [freq = [0] * 256; for b in data: freq[b] += 1] *)
Definition histogram (data : bytes) : list Z :=
  foldl (fun freq b => alter Z.succ (Byte.to_nat b) freq)
        (replicate 256%nat 0) data.

Section Entropy.
Variable log2 : float -> float.

Definition entropy_step (n : Z) (entropy : float) (f : Z) : float :=
  if f =? 0 then entropy
  else let p := PrimFloat.div (float_of_int f) (float_of_int n) in
       PrimFloat.sub entropy (PrimFloat.mul p (log2 p)).

Definition shannon_entropy (data : bytes) : float :=
  match data with
  | [] => 0%float
  | _ => foldl (entropy_step (len data)) 0%float (histogram data)
  end.

End Entropy.

(** The binary logarithm where it is exact: on a power of two [2^k] the
    result is [k], as for [math.log2]; elsewhere not a number. *)
Definition log2_pow2 (x : float) : float :=
  let '(m, e) := PrimFloat.frshiftexp x in
  if PrimFloat.eqb m 0.5%float then
    let k := Uint63.to_Z e - FloatOps.shift - 1 in
    if k <? 0 then PrimFloat.opp (float_of_int (- k)) else float_of_int k
  else PrimFloat.nan.

(** ** [find_regions_from_minidump] (lines 46-61)

    The minidump parser is an external library; the finder consumes its
    [memory_segments_64], which is [None] when the stream is absent. *)

Record Segment : Type := mkSegment {
  start_file_address : Z;
  size : Z
}.

Definition size_in_bounds (sz : Z) : bool :=
  (MIN_REGION_SIZE <? sz) && (sz <=? MAX_REGION_SIZE).

Definition segment_region (seg : Segment) : Region :=
  let file_offset := start_file_address seg in
  mkRegion file_offset (file_offset + size seg) (size seg).

Fixpoint minidump_loop (segs : list Segment) (regions : list Region)
  : list Region :=
  match segs with
  | [] => regions
  | seg :: segs' =>
      if size_in_bounds (size seg)
      then minidump_loop segs' (regions ++ [segment_region seg])
      else minidump_loop segs' regions
  end.

Definition find_regions_from_minidump (memory_segments_64 : option (list Segment))
  : list Region :=
  match memory_segments_64 with
  | Some memory_segments => minidump_loop memory_segments []
  | None => []
  end.


(** ** [find_regions_loose] (lines 64-129)

    [size] is the length of the file and [mm] its mapping; mapping an empty
    file raises [ValueError].  Each pass of a [while] loop spends one unit
    of [fuel]; [find_regions_loose] supplies enough of it (see
    [find_regions_loose_terminates]). *)

Fixpoint forward_loop (fuel : nat) (mm : bytes) (size pos : Z)
         (regions : list Region) : result (list Region) :=
  if pos <? size then
    match fuel with
    | O => Raise OutOfFuel
    | S fuel' =>
        let start_null := find mm NULL_BLOCK_START pos in
        if start_null =? -1 then Ok regions else
        let region_start := start_null + MIN_NULL_START_REGION_SIZE in
        let next_non_null := find mm [x01] region_start in
        if next_non_null =? -1 then Ok regions else
        let region_start := next_non_null in
        if size <=? region_start then Ok regions else
        let end_null := find mm NULL_BLOCK_END region_start in
        if end_null =? -1 then Ok regions else
        let region_end := end_null in
        let region_size := region_end - region_start in
        let regions :=
          if (MIN_REGION_SIZE <? region_size) && (region_size <=? MAX_REGION_SIZE)
          then regions ++ [mkRegion region_start region_end region_size]
          else regions in
        forward_loop fuel' mm size (end_null + MIN_NULL_START_REGION_SIZE) regions
    end
  else Ok regions.

Fixpoint backward_loop (fuel : nat) (mm : bytes) (size pos : Z)
         (regions : list Region) : result (list Region) :=
  if pos <? size then
    match fuel with
    | O => Raise OutOfFuel
    | S fuel' =>
        let end_null := find mm NULL_BLOCK_END pos in
        if end_null =? -1 then Ok regions else
        let region_end := end_null in
        let region_start := Z.max 0 (region_end - AVERAGE_REGION_SIZE) in
        let region_size := region_end - region_start in
        let check_start := Z.max region_start (region_end - PRE_NULL_CHECK) in
        if count (slice mm check_start region_end) x00 =? region_end - check_start
        then backward_loop fuel' mm size (end_null + MIN_NULL_END_REGION_SIZE) regions
        else
          let regions :=
            if MIN_REGION_SIZE <=? region_size
            then regions ++ [mkRegion region_start region_end region_size]
            else regions in
          backward_loop fuel' mm size (end_null + MIN_NULL_END_REGION_SIZE) regions
    end
  else Ok regions.

Definition find_regions_loose (mm : bytes) (scan_mode : ScanMode)
  : result (list Region) :=
  let size := len mm in
  if size =? 0 then Raise ValueError
  else match scan_mode with
       | Forward => forward_loop (length mm) mm size 0 []
       | Backward => backward_loop (length mm) mm size 0 []
       end.

(** ** [find_aes_keys_in_regions] (lines 132-191) *)

(** [range(start, stop)] *)
Definition range (start stop : Z) : list Z := seqZ start (stop - start).

(** Lines 169-178, one search for the next occurrence of [candidate]: the
    first [j] of the lookahead range whose window equals the candidate
    ([found_next]), or [None]. *)
Definition find_next (mm : bytes) (region_end scan_pos : Z) (candidate : bytes)
  : option Z :=
  let lookahead_start := scan_pos + 1 in
  let lookahead_end := Z.min (region_end - AES_KEY_SIZE) (scan_pos + LOOKAHEAD) in
  List.find (fun j => bool_decide (slice mm j (j + AES_KEY_SIZE) = candidate))
            (range lookahead_start lookahead_end).

(** Lines 168-181, the loop [while repeat_count < REQUIRED_REPEATS]; the
    result is the final [repeat_count]. *)
Fixpoint verify_loop (fuel : nat) (mm : bytes) (region_end : Z) (candidate : bytes)
         (repeat_count scan_pos : Z) : result Z :=
  if repeat_count <? REQUIRED_REPEATS then
    match fuel with
    | O => Raise OutOfFuel
    | S fuel' =>
        match find_next mm region_end scan_pos candidate with
        | Some j => verify_loop fuel' mm region_end candidate (repeat_count + 1) j
        | None => Ok repeat_count
        end
    end
  else Ok repeat_count.

(** Line 145, [while i < initial_end and mm[i] == 0x00: i += 1]. *)
Fixpoint skip_nulls (fuel : nat) (mm : bytes) (initial_end i : Z) : result Z :=
  if i <? initial_end then
    b ← getitem mm i;
    if decide (b = x00) then
      match fuel with
      | O => Raise OutOfFuel
      | S fuel' => skip_nulls fuel' mm initial_end (i + 1)
      end
    else Ok i
  else Ok i.

Section Scanner.
Variable log2 : float -> float.

(** Lines 149-184, the body of the scan loop at offset [i], up to the
    increment of [i]. *)
Definition check_candidate (mm : bytes) (region_start region_end i : Z)
           (keys_found : gset bytes) : result (gset bytes) :=
  let candidate := slice mm i (i + AES_KEY_SIZE) in
  b0 ← getitem candidate 0;
  if decide (b0 = x00) then Ok keys_found
  else if 2 <? count candidate x00 then Ok keys_found
  else if (i - 2 <? region_start)
          || negb (bool_decide (slice mm (i - 2) i = [x00; x00]))
  then Ok keys_found
  else
    let entropy := shannon_entropy log2 candidate in
    if PrimFloat.leb AES_ENTROPY_THRESHOLD entropy then
      repeat_count ←
        verify_loop (Z.to_nat REQUIRED_REPEATS) mm region_end candidate 1 i;
      if REQUIRED_REPEATS <=? repeat_count
      then Ok ({[candidate]} ∪ keys_found)
      else Ok keys_found
    else Ok keys_found.

(** Line 148, [while i <= initial_end - AES_KEY_SIZE]. *)
Fixpoint scan_loop (fuel : nat) (mm : bytes) (region_start region_end initial_end i : Z)
         (keys_found : gset bytes) : result (gset bytes) :=
  if i <=? initial_end - AES_KEY_SIZE then
    match fuel with
    | O => Raise OutOfFuel
    | S fuel' =>
        keys_found ← check_candidate mm region_start region_end i keys_found;
        scan_loop fuel' mm region_start region_end initial_end (i + 1) keys_found
    end
  else Ok keys_found.

(** Lines 140-186, the body of the loop over the regions. *)
Definition scan_region (mm : bytes) (region : Region) (keys_found : gset bytes)
  : result (gset bytes) :=
  let region_start := region_start region in
  let region_end := region_end region in
  let initial_end := Z.min (region_start + MAX_INITIAL_SCAN_IN_REGION)
                           (region_end - AES_KEY_SIZE) in
  i ← skip_nulls (Z.to_nat (initial_end - region_start)) mm initial_end region_start;
  scan_loop (Z.to_nat (initial_end - AES_KEY_SIZE - i + 1))
            mm region_start region_end initial_end i keys_found.

Fixpoint regions_loop (mm : bytes) (regions : list Region) (keys_found : gset bytes)
  : result (gset bytes) :=
  match regions with
  | [] => Ok keys_found
  | region :: regions' =>
      keys_found ← scan_region mm region keys_found;
      regions_loop mm regions' keys_found
  end.

Definition find_aes_keys_in_regions (mm : bytes) (regions : list Region)
  : result (gset bytes) :=
  if len mm =? 0 then Raise ValueError
  else regions_loop mm regions ∅.

End Scanner.

(** ** Notions the properties are stated with *)

(** Two regions overlap when their byte ranges [start, end) share an offset. *)
Definition regions_overlap (r r' : Region) : Prop :=
  exists k, region_start r <= k < region_end r
            /\ region_start r' <= k < region_end r'.

(** Emitted in file order, each region ending before the next begins. *)
Definition region_before (r r' : Region) : Prop :=
  region_end r <= region_start r'.

(** *** Sightings of a candidate (periodicity verification) *)

(** The window of AES_KEY_SIZE bytes at offset [j]. *)
Definition window (mm : bytes) (j : Z) : bytes := slice mm j (j + AES_KEY_SIZE).

(** The offsets one lookahead search from [scan_pos] examines: a range that
    excludes its upper end. *)
Definition in_lookahead (region_end scan_pos j : Z) : Prop :=
  scan_pos < j < Z.min (region_end - AES_KEY_SIZE) (scan_pos + LOOKAHEAD).

(** [q] is the next sighting after [p]: the first offset of the lookahead
    from [p] at which the candidate occurs. *)
Definition next_sighting (mm : bytes) (region_end : Z) (candidate : bytes)
           (p q : Z) : Prop :=
  in_lookahead region_end p q
  /\ window mm q = candidate
  /\ forall j, p < j < q -> window mm j <> candidate.

(** [sightings mm region_end candidate p n]: the candidate is sighted [n]
    times in total, first at [p], then each time by the bounded lookahead
    search that starts just past the previous sighting. *)
Inductive sightings (mm : bytes) (region_end : Z) (candidate : bytes)
  : Z -> nat -> Prop :=
  | sightings_first p :
      sightings mm region_end candidate p 1
  | sightings_next p q n :
      next_sighting mm region_end candidate p q ->
      sightings mm region_end candidate q n ->
      sightings mm region_end candidate p (S n).

(** [chain_stops mm region_end candidate p n]: the chain of sightings that
    starts at [p] stops after [n] sightings, the lookahead from the last of
    them finding nothing. *)
Inductive chain_stops (mm : bytes) (region_end : Z) (candidate : bytes)
  : Z -> nat -> Prop :=
  | chain_stops_here p :
      (forall j, in_lookahead region_end p j -> window mm j <> candidate) ->
      chain_stops mm region_end candidate p 1
  | chain_stops_later p q n :
      next_sighting mm region_end candidate p q ->
      chain_stops mm region_end candidate q n ->
      chain_stops mm region_end candidate p (S n).

(** The conditions under which the scan loop adds the window at [i] of a
    region to the result set. *)
Record accepted_at (log2 : float -> float) (mm : bytes) (region : Region)
       (i : Z) (candidate : bytes) : Prop := mkAccepted {
  acc_window : candidate = window mm i;
  acc_in_scan :
    i <= Z.min (region_start region + MAX_INITIAL_SCAN_IN_REGION)
               (region_end region - AES_KEY_SIZE) - AES_KEY_SIZE;
  acc_first_byte : exists b0, getitem candidate 0 = Ok b0 /\ b0 <> x00;
  acc_nulls : count candidate x00 <= 2;
  acc_in_region : region_start region <= i - 2;
  acc_padding : slice mm (i - 2) i = [x00; x00];
  acc_entropy :
    PrimFloat.leb AES_ENTROPY_THRESHOLD (shannon_entropy log2 candidate) = true;
  acc_repeats :
    sightings mm (region_end region) candidate i (Z.to_nat REQUIRED_REPEATS)
}.

(** ** [main] (lines 208-244)

    The dump file is [mm]; [parsed] is what [MinidumpFile.parse] does on
    it.  What a run does is recorded as a log of events, in order: each
    call of a discovery function that returned (line 220) and each call of
    the key scanner that returned (line 232), with what it returned; the
    report is what the run prints at its end.  An exception of a discovery
    function or of the scanner is not handled: it ends the run. *)

(** Line 48, [dump = MinidumpFile.parse(file_path)]: the parser, an
    external library, either raises or returns the dump, of which the
    finder reads [memory_segments_64]. *)
Inductive Parsed : Type :=
  | ParseRaises
  | ParsedDump (memory_segments_64 : option (list Segment)).

(** Lines 46-61 with the call of the parser: its exception is not
    handled. *)
Definition find_regions_from_minidump_file (parsed : Parsed)
  : result (list Region) :=
  match parsed with
  | ParseRaises => Raise ParserError
  | ParsedDump memory_segments_64 =>
      Ok (find_regions_from_minidump memory_segments_64)
  end.

Inductive Event : Type :=
  | Discover (mode : option ScanMode) (regions : list Region)
  | Scan (regions : list Region) (keys : gset bytes).

Inductive Report : Type :=
  | NoKeysFound
  | KeysFound (keys : gset bytes).

(** The modes of [scan_steps]: [None] is the minidump scan. *)
Definition scan_steps : list (option ScanMode) :=
  [None; Some Forward; Some Backward].

Section Main.
Variable log2 : float -> float.
Variable parsed : Parsed.
Variable mm : bytes.

(** Line 220, [scan_func(file_path) if mode is None else
    scan_func(file_path, mode)]. *)
Definition run_scan_func (mode : option ScanMode) : result (list Region) :=
  match mode with
  | None => find_regions_from_minidump_file parsed
  | Some scan_mode => find_regions_loose mm scan_mode
  end.

(** Lines 218-240, the loop over [scan_steps]; [keys] is the variable of
    that name, returned with the log when the loop ends or breaks. *)
Fixpoint steps_loop (steps : list (option ScanMode)) (keys : gset bytes)
         (log : list Event) : result (gset bytes * list Event) :=
  match steps with
  | [] => Ok (keys, log)
  | mode :: steps' =>
      regions ← run_scan_func mode;
      let log := log ++ [Discover mode regions] in
      match regions with
      | [] => steps_loop steps' keys log
      | _ :: _ =>
          keys ← find_aes_keys_in_regions log2 mm regions;
          let log := log ++ [Scan regions keys] in
          if decide (keys = ∅) then steps_loop steps' keys log
          else Ok (keys, log)
      end
  end.

Definition main : result (list Event * Report) :=
  r ← steps_loop scan_steps ∅ [];
  let '(keys, log) := r in
  if decide (keys = ∅) then Ok (log, NoKeysFound) else Ok (log, KeysFound keys).

End Main.


(** ** Sample dump files *)

(** A run of [n] bytes [b]. *)
Definition run (n : Z) (b : byte) : bytes := replicate (Z.to_nat n) b.

(** A file with a stray byte 0x02 between the leading null block and the
    first byte 0x01. *)
Definition dump_stray_byte : bytes :=
  run 10000 x00 ++ [x02] ++ run 25001 x01 ++ run 10000 x00.

(** A file of exactly MIN_REGION_SIZE bytes of data before a null block. *)
Definition dump_min_size : bytes := run 25000 x01 ++ run 10000 x00.

(** A file with two framed regions. *)
Definition dump_two_regions : bytes :=
  run 10000 x00 ++ run 25001 x01 ++ run 20000 x00 ++ run 25001 x01 ++ run 10000 x00.

(** A key of 32 distinct bytes, none of them null. *)
Definition sample_key : bytes :=
  [x01; x02; x03; x04; x05; x06; x07; x08; x09; x0a; x0b; x0c; x0d; x0e; x0f; x10;
   x11; x12; x13; x14; x15; x16; x17; x18; x19; x1a; x1b; x1c; x1d; x1e; x1f; x20].

(** [n] copies of the key, [period] bytes apart, with bytes 0x21 between
    them. *)
Fixpoint key_copies (period : Z) (n : nat) : bytes :=
  match n with
  | O => []
  | S n' => sample_key ++ run (period - AES_KEY_SIZE) x21 ++ key_copies period n'
  end.

(** The copies of the key between two null bytes and a null tail. *)
Definition dump_keys (period : Z) (n : nat) : bytes :=
  run 2 x00 ++ key_copies period n ++ run 100 x00.

(** A file with the key at offset 0 and again at offset 300 = 0 + LOOKAHEAD,
    and nowhere between. *)
Definition dump_key_at_lookahead : bytes :=
  sample_key ++ run 268 x00 ++ sample_key.

(** A second key of 32 distinct bytes, none of them null. *)
Definition second_key : bytes :=
  [x41; x42; x43; x44; x45; x46; x47; x48; x49; x4a; x4b; x4c; x4d; x4e; x4f; x50;
   x51; x52; x53; x54; x55; x56; x57; x58; x59; x5a; x5b; x5c; x5d; x5e; x5f; x60].

Fixpoint second_key_copies (period : Z) (n : nat) : bytes :=
  match n with
  | O => []
  | S n' =>
      second_key ++ run (period - AES_KEY_SIZE) x21 ++ second_key_copies period n'
  end.

(** Ten copies of the first key, then ten copies of the second, each group
    after two null bytes. *)
Definition dump_two_keys : bytes :=
  run 2 x00 ++ key_copies 50 10
  ++ run 2 x00 ++ second_key_copies 50 10 ++ run 100 x00.

(** ** Further notions for the properties *)

(** A null block, MIN_NULL_END_REGION_SIZE null bytes, lies at offset [k]. *)
Definition null_block_at (mm : bytes) (k : Z) : Prop :=
  0 <= k /\ slice mm k (k + MIN_NULL_END_REGION_SIZE) = NULL_BLOCK_END.

(** A region lies inside the file. *)
Definition region_in_file (mm : bytes) (r : Region) : Prop :=
  0 <= region_start r /\ region_end r <= len mm.

(** A region framed as the forward pass frames it: after a null block and
    the bytes other than 0x01 that follow it, from a byte 0x01 up to the
    first null block. *)
Definition forward_framed (mm : bytes) (r : Region) : Prop :=
  exists start_null,
    null_block_at mm start_null
    /\ start_null + MIN_NULL_START_REGION_SIZE <= region_start r
    /\ (forall k, start_null + MIN_NULL_START_REGION_SIZE <= k < region_start r ->
                  getitem mm k <> Ok x01)
    /\ getitem mm (region_start r) = Ok x01
    /\ null_block_at mm (region_end r)
    /\ (forall k, region_start r <= k < region_end r -> ~ null_block_at mm k)
    /\ region_end r + MIN_NULL_END_REGION_SIZE <= len mm
    /\ region_size r = region_end r - region_start r.


(** A region as the backward pass takes it: a look-back window that ends
    at a null block, with bytes that are not all null just before it. *)
Definition backward_framed (mm : bytes) (r : Region) : Prop :=
  null_block_at mm (region_end r)
  /\ region_end r + MIN_NULL_END_REGION_SIZE <= len mm
  /\ 0 <= region_start r
  /\ count (slice mm (region_end r - PRE_NULL_CHECK) (region_end r)) x00
     < PRE_NULL_CHECK.

(** Emitted in file order of their ends, a null block apart at least. *)
Definition region_ends_apart (r r' : Region) : Prop :=
  region_end r + MIN_NULL_END_REGION_SIZE <= region_end r'.

(** A file with a framed run of bytes 0x02 and no byte 0x01. *)
Definition dump_no_x01 : bytes :=
  run 10000 x00 ++ run 30000 x02 ++ run 10000 x00.

(** The keys [keys_found] added to the outcome of a scan. *)
Definition add_keys (keys_found : gset bytes) (r : result (gset bytes))
  : result (gset bytes) :=
  match r with
  | Ok keys => Ok (keys ∪ keys_found)
  | Raise e => Raise e
  end.

(** The parser returned a dump, and the segments it declares, if any, lie
    inside the file. *)
Definition dump_in_file (mm : bytes) (parsed : Parsed) : Prop :=
  match parsed with
  | ParseRaises => False
  | ParsedDump (Some segs) =>
      Forall (fun seg => 0 <= start_file_address seg
                         /\ start_file_address seg + size seg <= len mm) segs
  | ParsedDump None => True
  end.

(** The segments a parsed dump declares have file offsets that are not
    negative. *)
Definition dump_offsets_valid (parsed : Parsed) : Prop :=
  match parsed with
  | ParsedDump (Some segs) => Forall (fun seg => 0 <= start_file_address seg) segs
  | _ => True
  end.

(** Emitted in file order, the next region starting at least two null
    blocks after the end of the one before. *)
Definition region_far_before (r r' : Region) : Prop :=
  region_end r + MIN_NULL_END_REGION_SIZE + MIN_NULL_START_REGION_SIZE
  <= region_start r'.

(** * Properties *)

(** Closes an equation between closed terms by evaluating its left side. *)
Ltac by_evaluation :=
  lazymatch goal with
  | |- ?l = ?r => exact (@eq_refl _ r <: l = r)
  end.

(** ** Structured discovery *)

Lemma minidump_loop_filter segs regions :
  minidump_loop segs regions
  = regions ++ map segment_region (filter (fun s => size_in_bounds (size s) = true) segs).
Proof.
  revert regions. induction segs as [|seg segs IH]; intros regions; simpl.
  - by rewrite app_nil_r.
  - rewrite filter_cons. destruct (size_in_bounds (size seg)) eqn:E.
    + rewrite decide_True by done. rewrite IH. simpl. by rewrite <- app_assoc.
    + rewrite decide_False by congruence. apply IH.
Qed.


(** ** Entropy *)

(** C9: the entropy of the empty window and of 32 zero bytes is exactly
    0.0, given that the logarithm of 1.0 is 0.0. *)
Theorem entropy_zero (log2 : float -> float) :
  log2 1%float = 0%float ->
  shannon_entropy log2 [] = 0%float
  /\ shannon_entropy log2 (replicate 32%nat x00) = 0%float.
Proof.
  intros Hlog. split; [reflexivity|].
  vm_compute. rewrite Hlog. reflexivity.
Qed.

Lemma entropy_zero_witness :
  log2_pow2 1%float = 0%float
  /\ shannon_entropy log2_pow2 [] = 0%float
  /\ shannon_entropy log2_pow2 (replicate 32%nat x00) = 0%float.
Proof.
  split; [reflexivity|]. apply (entropy_zero log2_pow2). reflexivity.
Defined.

(** ** The search primitives *)

Lemma startswith_take l sub :
  startswith l sub = true <-> take (length sub) l = sub.
Proof.
  revert l. induction sub as [|s sub IH]; intros [|b l]; simpl; try done.
  destruct (Byte.eqb b s) eqn:E.
  - apply Byte.byte_dec_bl in E as ->. rewrite IH. split; [congruence|].
    by intros [= ->].
  - split; [done|]. intros [= -> _]. by rewrite Byte.byte_dec_lb in E.
Qed.

Lemma startswith_length l sub :
  startswith l sub = true -> (length sub <= length l)%nat.
Proof.
  rewrite startswith_take. intros <-. rewrite length_take. lia.
Qed.

(** What [find_from] returns: -1 when [sub] occurs nowhere in [l], else the
    offset of the first occurrence, counted from [i]. *)
Lemma find_from_cases sub l i :
  (find_from sub l i = -1
   /\ forall m : nat, startswith (drop m l) sub = false)
  \/ (exists n : nat,
        find_from sub l i = i + Z.of_nat n
        /\ startswith (drop n l) sub = true
        /\ forall m : nat, (m < n)%nat -> startswith (drop m l) sub = false).
Proof.
  revert i. induction l as [|b l IH]; intros i.
  - cbn [find_from]. destruct (startswith [] sub) eqn:E.
    + right. exists 0%nat. repeat split; [lia|done|lia].
    + left. split; [done|]. intros m. by rewrite drop_nil.
  - cbn [find_from]. destruct (startswith (b :: l) sub) eqn:E.
    + right. exists 0%nat. repeat split; [lia|done|lia].
    + destruct (IH (i + 1)) as [[Hr Hall]|(n & Hr & Hn & Hlt)].
      * left. split; [done|]. intros [|m]; [done|]. apply Hall.
      * right. exists (S n). repeat split; [lia|done|].
        intros [|m] Hm; [done|]. apply Hlt. lia.
Qed.

Lemma len_nonneg mm : 0 <= len mm.
Proof. unfold len. lia. Qed.

Lemma adjust_index_nonneg n i : 0 <= n -> 0 <= i -> adjust_index n i = Z.min i n.
Proof. intros Hn Hi. unfold adjust_index. destruct (Z.ltb_spec i 0); lia. Qed.

(** A slice with bounds that are not negative is [take] after [drop]. *)
Lemma slice_nonneg mm a b :
  0 <= a -> a <= b ->
  slice mm a b = take (Z.to_nat (b - a)) (drop (Z.to_nat a) mm).
Proof.
  intros Ha Hab. unfold slice. pose proof (len_nonneg mm) as Hl.
  rewrite !adjust_index_nonneg by lia. unfold len in *.
  destruct (Z.le_gt_cases b (Z.of_nat (length mm))) as [Hb|Hb].
  - by rewrite !Z.min_l by lia.
  - rewrite (Z.min_r b) by lia.
    destruct (Z.le_gt_cases a (Z.of_nat (length mm))) as [Ha'|Ha'].
    + rewrite Z.min_l by lia.
      rewrite !take_ge; [done| |]; rewrite length_drop; lia.
    + rewrite Z.min_r by lia. rewrite !drop_ge by lia. by rewrite !take_nil.
Qed.

Lemma startswith_slice mm sub k :
  0 <= k ->
  startswith (drop (Z.to_nat k) mm) sub = true <-> slice mm k (k + len sub) = sub.
Proof.
  intros Hk. rewrite startswith_take, slice_nonneg by (unfold len; lia).
  unfold len. by replace (Z.to_nat (k + Z.of_nat (length sub) - k)) with (length sub) by lia.
Qed.

(** [mm.find(sub, start)] that succeeds returns the first offset at or after
    [start] where [sub] occurs, and the occurrence lies inside the file. *)
Lemma find_found mm sub start r :
  sub <> [] -> 0 <= start -> find mm sub start = r -> r <> -1 ->
  start <= r /\ r + len sub <= len mm
  /\ slice mm r (r + len sub) = sub
  /\ forall k, start <= k < r -> slice mm k (k + len sub) <> sub.
Proof.
  intros Hsub Hstart Hfind Hr. unfold find in Hfind.
  pose proof (len_nonneg mm) as Hl.
  rewrite adjust_index_nonneg in Hfind by lia.
  set (s := Z.min start (len mm)) in *.
  destruct (find_from_cases sub (drop (Z.to_nat s) mm) s)
    as [[E _]|(n & E & Hn & Hlt)]; [congruence|].
  rewrite E in Hfind. subst r. rewrite drop_drop in Hn.
  replace (Z.to_nat s + n)%nat with (Z.to_nat (s + Z.of_nat n)) in Hn by lia.
  pose proof (startswith_length _ _ Hn) as Hlen. rewrite length_drop in Hlen.
  assert (0 < length sub)%nat by (destruct sub; [done|simpl; lia]).
  unfold len in *. repeat split; try lia.
  - by apply startswith_slice; [lia|].
  - intros k Hk Hslice. apply startswith_slice in Hslice; [|lia].
    specialize (Hlt (Z.to_nat (k - s))). rewrite drop_drop in Hlt.
    replace (Z.to_nat s + Z.to_nat (k - s))%nat with (Z.to_nat k) in Hlt by lia.
    rewrite Hlt in Hslice by lia. done.
Qed.

(** [mm.find(sub, start)] returns -1 only when [sub] does not occur at or
    after [start]. *)
Lemma find_missing mm sub start :
  sub <> [] -> 0 <= start -> find mm sub start = -1 ->
  forall k, start <= k -> slice mm k (k + len sub) <> sub.
Proof.
  intros Hsub Hstart Hfind k Hk Hslice. unfold find in Hfind.
  pose proof (len_nonneg mm) as Hl.
  rewrite adjust_index_nonneg in Hfind by lia.
  set (s := Z.min start (len mm)) in *.
  apply startswith_slice in Hslice; [|lia].
  pose proof (startswith_length _ _ Hslice) as Hlen. rewrite length_drop in Hlen.
  assert (0 < length sub)%nat by (destruct sub; [done|simpl; lia]).
  destruct (find_from_cases sub (drop (Z.to_nat s) mm) s)
    as [[_ Hall]|(n & E & _)]; [|lia].
  specialize (Hall (Z.to_nat (k - s))). rewrite drop_drop in Hall.
  unfold len in *.
  replace (Z.to_nat s + Z.to_nat (k - s))%nat with (Z.to_nat k) in Hall by lia.
  congruence.
Qed.

Lemma NULL_BLOCK_START_nonempty : NULL_BLOCK_START <> [].
Proof. intros H. apply (f_equal length) in H. vm_compute in H. discriminate. Qed.

Lemma NULL_BLOCK_END_nonempty : NULL_BLOCK_END <> [].
Proof. intros H. apply (f_equal length) in H. vm_compute in H. discriminate. Qed.

(** ** Heuristic discovery: loop invariants *)

Section LooseInvariants.
Variable mm : bytes.
Variable size : Z.

(** An invariant kept by one pass of the forward loop holds of its result. *)
Lemma forward_loop_invariant (I : Z -> list Region -> Prop) :
  (forall pos regions start_null next_non_null end_null,
     I pos regions -> pos < size ->
     start_null = find mm NULL_BLOCK_START pos -> start_null <> -1 ->
     next_non_null = find mm [x01] (start_null + MIN_NULL_START_REGION_SIZE) ->
     next_non_null <> -1 -> next_non_null < size ->
     end_null = find mm NULL_BLOCK_END next_non_null -> end_null <> -1 ->
     I (end_null + MIN_NULL_START_REGION_SIZE)
       (if (MIN_REGION_SIZE <? end_null - next_non_null)
           && (end_null - next_non_null <=? MAX_REGION_SIZE)
        then regions ++ [mkRegion next_non_null end_null (end_null - next_non_null)]
        else regions)) ->
  forall fuel pos regions out,
    I pos regions ->
    forward_loop fuel mm size pos regions = Ok out ->
    exists pos', I pos' out.
Proof.
  intros Hstep. induction fuel as [|fuel IH]; intros pos regions out HI;
    cbn [forward_loop]; destruct (Z.ltb_spec pos size) as [Hpos|Hpos];
    try discriminate; try (intros [= <-]; by exists pos).
  destruct (Z.eqb_spec (find mm NULL_BLOCK_START pos) (-1)) as [|Hs];
    [intros [= <-]; by exists pos|].
  destruct (Z.eqb_spec
              (find mm [x01] (find mm NULL_BLOCK_START pos + MIN_NULL_START_REGION_SIZE))
              (-1)) as [|Hn]; [intros [= <-]; by exists pos|].
  set (nn := find mm [x01] _) in *.
  destruct (Z.leb_spec size nn) as [|Hlt]; [intros [= <-]; by exists pos|].
  destruct (Z.eqb_spec (find mm NULL_BLOCK_END nn) (-1)) as [|He];
    [intros [= <-]; by exists pos|].
  apply IH. by eapply Hstep.
Qed.

(** An invariant kept by one pass of the backward loop holds of its result. *)
Lemma backward_loop_invariant (I : Z -> list Region -> Prop) :
  (forall pos regions end_null region_start check_start,
     I pos regions -> pos < size ->
     end_null = find mm NULL_BLOCK_END pos -> end_null <> -1 ->
     region_start = Z.max 0 (end_null - AVERAGE_REGION_SIZE) ->
     check_start = Z.max region_start (end_null - PRE_NULL_CHECK) ->
     I (end_null + MIN_NULL_END_REGION_SIZE)
       (if count (slice mm check_start end_null) x00 =? end_null - check_start
        then regions
        else if MIN_REGION_SIZE <=? end_null - region_start
             then regions ++ [mkRegion region_start end_null (end_null - region_start)]
             else regions)) ->
  forall fuel pos regions out,
    I pos regions ->
    backward_loop fuel mm size pos regions = Ok out ->
    exists pos', I pos' out.
Proof.
  intros Hstep. induction fuel as [|fuel IH]; intros pos regions out HI;
    cbn [backward_loop]; destruct (Z.ltb_spec pos size) as [Hpos|Hpos];
    try discriminate; try (intros [= <-]; by exists pos).
  destruct (Z.eqb_spec (find mm NULL_BLOCK_END pos) (-1)) as [|He];
    [intros [= <-]; by exists pos|].
  set (end_null := find mm NULL_BLOCK_END pos) in *.
  specialize (Hstep pos regions end_null _ _ HI Hpos eq_refl He eq_refl eq_refl).
  destruct (count _ x00 =? _); apply IH; exact Hstep.
Qed.

(** The forward loop ends within the budget: the cursor moves on by at
    least one null block per pass. *)
Lemma forward_loop_total fuel pos regions :
  0 <= pos -> size - pos <= Z.of_nat fuel ->
  exists out, forward_loop fuel mm size pos regions = Ok out.
Proof.
  revert pos regions. induction fuel as [|fuel IH]; intros pos regions Hpos Hfuel;
    cbn [forward_loop]; destruct (Z.ltb_spec pos size) as [Hlt|Hge];
    try lia; try by eexists.
  destruct (Z.eqb_spec (find mm NULL_BLOCK_START pos) (-1)) as [|Hs]; [by eexists|].
  destruct (find_found mm _ pos _ NULL_BLOCK_START_nonempty Hpos eq_refl Hs)
    as (Hs1 & _).
  set (sn := find mm NULL_BLOCK_START pos) in *.
  destruct (Z.eqb_spec (find mm [x01] (sn + MIN_NULL_START_REGION_SIZE)) (-1))
    as [|Hn]; [by eexists|].
  assert (Hm : 0 < MIN_NULL_START_REGION_SIZE) by done.
  destruct (find_found mm [x01] (sn + MIN_NULL_START_REGION_SIZE) _
              ltac:(done) ltac:(lia) eq_refl Hn) as (Hn1 & _).
  set (nn := find mm [x01] _) in *.
  destruct (Z.leb_spec size nn); [by eexists|].
  destruct (Z.eqb_spec (find mm NULL_BLOCK_END nn) (-1)) as [|He]; [by eexists|].
  destruct (find_found mm _ nn _ NULL_BLOCK_END_nonempty ltac:(lia) eq_refl He)
    as (He1 & _).
  apply IH; lia.
Qed.

Lemma backward_loop_total fuel pos regions :
  0 <= pos -> size - pos <= Z.of_nat fuel ->
  exists out, backward_loop fuel mm size pos regions = Ok out.
Proof.
  revert pos regions. induction fuel as [|fuel IH]; intros pos regions Hpos Hfuel;
    cbn [backward_loop]; destruct (Z.ltb_spec pos size) as [Hlt|Hge];
    try lia; try by eexists.
  destruct (Z.eqb_spec (find mm NULL_BLOCK_END pos) (-1)) as [|He]; [by eexists|].
  destruct (find_found mm _ pos _ NULL_BLOCK_END_nonempty Hpos eq_refl He)
    as (He1 & _).
  assert (Hm : 0 < MIN_NULL_END_REGION_SIZE) by done.
  destruct (count _ x00 =? _); apply IH; lia.
Qed.

End LooseInvariants.

(** Heuristic discovery returns a region list for every file that is not
    empty, in both modes: the loops never exhaust the budget. *)
Lemma find_regions_loose_terminates mm scan_mode :
  mm <> [] -> exists regions, find_regions_loose mm scan_mode = Ok regions.
Proof.
  intros Hmm. unfold find_regions_loose.
  destruct (Z.eqb_spec (len mm) 0) as [E|_].
  { destruct mm; [done|]. unfold len in E. simpl in E. lia. }
  destruct scan_mode;
    [apply forward_loop_total|apply backward_loop_total]; unfold len; lia.
Qed.

Lemma find_regions_loose_empty scan_mode :
  find_regions_loose [] scan_mode = Raise ValueError.
Proof. reflexivity. Qed.

(** ** Heuristic discovery: the regions *)

(** A property of every region the forward pass can append holds of all
    the regions it returns. *)
Lemma forward_regions_Forall mm (P : Region -> Prop) regions :
  (forall start_null next_non_null end_null,
     0 <= start_null ->
     next_non_null = find mm [x01] (start_null + MIN_NULL_START_REGION_SIZE) ->
     next_non_null <> -1 ->
     end_null = find mm NULL_BLOCK_END next_non_null -> end_null <> -1 ->
     MIN_REGION_SIZE < end_null - next_non_null <= MAX_REGION_SIZE ->
     P (mkRegion next_non_null end_null (end_null - next_non_null))) ->
  find_regions_loose mm Forward = Ok regions -> Forall P regions.
Proof.
  intros HP. unfold find_regions_loose.
  destruct (len mm =? 0); [done|]. intros Hrun.
  destruct (forward_loop_invariant mm (len mm)
              (fun pos regions => 0 <= pos /\ Forall P regions)) with
    (3 := Hrun) as (_ & _ & H); [|done|done].
  intros pos rs sn nn en [Hpos HF] _ Hsn Hsn1 Hnn Hnn1 _ Hen Hen1.
  destruct (find_found mm _ pos _ NULL_BLOCK_START_nonempty Hpos (eq_sym Hsn) Hsn1)
    as (Hs & _).
  assert (Hm : 0 < MIN_NULL_START_REGION_SIZE) by done.
  destruct (find_found mm [x01] (sn + MIN_NULL_START_REGION_SIZE) nn
              ltac:(done) ltac:(lia) (eq_sym Hnn) Hnn1) as (Hn & _).
  destruct (find_found mm _ nn en NULL_BLOCK_END_nonempty ltac:(lia) (eq_sym Hen) Hen1)
    as (He & _).
  split; [lia|].
  destruct (Z.ltb_spec MIN_REGION_SIZE (en - nn)); [|done].
  destruct (Z.leb_spec (en - nn) MAX_REGION_SIZE); [|done].
  simpl. apply Forall_app. split; [done|]. apply Forall_singleton.
  apply (HP sn nn en); [lia|done|done|done|done|lia].
Qed.

(** A property of every region the backward pass can append holds of all
    the regions it returns. *)
Lemma backward_regions_Forall mm (P : Region -> Prop) regions :
  (forall end_null region_start,
     0 <= end_null ->
     region_start = Z.max 0 (end_null - AVERAGE_REGION_SIZE) ->
     MIN_REGION_SIZE <= end_null - region_start ->
     P (mkRegion region_start end_null (end_null - region_start))) ->
  find_regions_loose mm Backward = Ok regions -> Forall P regions.
Proof.
  intros HP. unfold find_regions_loose.
  destruct (len mm =? 0); [done|]. intros Hrun.
  destruct (backward_loop_invariant mm (len mm)
              (fun pos regions => 0 <= pos /\ Forall P regions)) with
    (3 := Hrun) as (_ & _ & H); [|done|done].
  intros pos rs en rstart cs [Hpos HF] _ Hen Hen1 -> _.
  destruct (find_found mm _ pos en NULL_BLOCK_END_nonempty Hpos (eq_sym Hen) Hen1)
    as (He & _).
  assert (Hm : 0 < MIN_NULL_END_REGION_SIZE) by done.
  split; [lia|].
  destruct (count _ x00 =? _); [done|].
  destruct (Z.leb_spec MIN_REGION_SIZE (en - Z.max 0 (en - AVERAGE_REGION_SIZE)));
    [|done].
  apply Forall_app. split; [done|]. apply Forall_singleton.
  apply HP; [lia|done|done].
Qed.

Lemma minidump_regions_Forall segs :
  Forall (fun r => MIN_REGION_SIZE < region_size r <= MAX_REGION_SIZE)
         (find_regions_from_minidump segs).
Proof.
  destruct segs as [segs|]; [|constructor]. simpl.
  rewrite minidump_loop_filter. simpl. apply Forall_forall.
  intros r (seg & -> & Hseg)%list_elem_of_fmap.
  apply list_elem_of_filter in Hseg as [Hb _]. simpl.
  apply andb_true_iff in Hb as [H1%Z.ltb_lt H2%Z.leb_le]. done.
Qed.

(** C2 (as amended): regions of structured and of forward-heuristic
    discovery have MIN_REGION_SIZE < size <= MAX_REGION_SIZE; regions of
    backward-heuristic discovery have MIN_REGION_SIZE <= size, the bound
    being inclusive there. *)
Theorem region_size_bounds mm segs forward_regions backward_regions :
  find_regions_loose mm Forward = Ok forward_regions ->
  find_regions_loose mm Backward = Ok backward_regions ->
  Forall (fun r => MIN_REGION_SIZE < region_size r <= MAX_REGION_SIZE)
         (find_regions_from_minidump segs)
  /\ Forall (fun r => MIN_REGION_SIZE < region_size r <= MAX_REGION_SIZE)
            forward_regions
  /\ Forall (fun r => MIN_REGION_SIZE <= region_size r) backward_regions.
Proof.
  intros Hf Hb. split; [apply minidump_regions_Forall|]. split.
  - eapply forward_regions_Forall; [|exact Hf]. intros; simpl; lia.
  - eapply backward_regions_Forall; [|exact Hb]. intros; simpl; lia.
Qed.

Lemma region_size_bounds_witness :
  let mm := dump_stray_byte in
  let segs := Some [mkSegment 0 30000; mkSegment 30000 5000000] in
  find_regions_loose mm Forward = Ok [mkRegion 10001 35002 25001]
  /\ find_regions_loose mm Backward = Ok [mkRegion 0 35002 35002]
  /\ find_regions_from_minidump segs = [mkRegion 0 30000 30000]
  /\ Forall (fun r => MIN_REGION_SIZE < region_size r <= MAX_REGION_SIZE)
            (find_regions_from_minidump segs)
  /\ Forall (fun r => MIN_REGION_SIZE < region_size r <= MAX_REGION_SIZE)
            [mkRegion 10001 35002 25001]
  /\ Forall (fun r => MIN_REGION_SIZE <= region_size r) [mkRegion 0 35002 35002].
Proof.
  intros mm segs.
  assert (Hf : find_regions_loose mm Forward = Ok [mkRegion 10001 35002 25001])
    by (vm_compute; reflexivity).
  assert (Hb : find_regions_loose mm Backward = Ok [mkRegion 0 35002 35002])
    by (vm_compute; reflexivity).
  split; [exact Hf|]. split; [exact Hb|]. split; [reflexivity|].
  exact (region_size_bounds mm segs _ _ Hf Hb).
Defined.

(** C2, the claim as stated fails: backward discovery returns a region of
    exactly MIN_REGION_SIZE bytes, so the strict bound does not hold. *)
Lemma backward_region_of_min_size :
  find_regions_loose dump_min_size Backward = Ok [mkRegion 0 25000 25000]
  /\ ~ (MIN_REGION_SIZE < region_size (mkRegion 0 25000 25000)).
Proof. split; [vm_compute; reflexivity|]. simpl. unfold MIN_REGION_SIZE. lia. Qed.

(** C10: a region of backward discovery starts at
    max(0, end - AVERAGE_REGION_SIZE), so its size is at most
    AVERAGE_REGION_SIZE and never exceeds MAX_REGION_SIZE. *)
Theorem backward_region_size_capped mm regions :
  find_regions_loose mm Backward = Ok regions ->
  Forall (fun r =>
            region_start r = Z.max 0 (region_end r - AVERAGE_REGION_SIZE)
            /\ region_size r = region_end r - region_start r
            /\ region_size r <= AVERAGE_REGION_SIZE
            /\ region_size r <= MAX_REGION_SIZE) regions.
Proof.
  apply backward_regions_Forall. intros en rs Hen -> _.
  cbn [region_start region_end region_size].
  unfold AVERAGE_REGION_SIZE, MAX_REGION_SIZE. lia.
Qed.

Lemma backward_region_size_capped_witness :
  find_regions_loose dump_stray_byte Backward = Ok [mkRegion 0 35002 35002]
  /\ Forall (fun r =>
               region_start r = Z.max 0 (region_end r - AVERAGE_REGION_SIZE)
               /\ region_size r = region_end r - region_start r
               /\ region_size r <= AVERAGE_REGION_SIZE
               /\ region_size r <= MAX_REGION_SIZE) [mkRegion 0 35002 35002].
Proof.
  assert (Hb : find_regions_loose dump_stray_byte Backward
               = Ok [mkRegion 0 35002 35002]) by (vm_compute; reflexivity).
  split; [exact Hb|]. exact (backward_region_size_capped _ _ Hb).
Defined.

Lemma slice_lookup mm a b (n : nat) x :
  0 <= a -> a <= b ->
  slice mm a b !! n = Some x -> mm !! (Z.to_nat a + n)%nat = Some x.
Proof.
  intros Ha Hab. rewrite slice_nonneg by done.
  intros [H _]%lookup_take_Some. by rewrite lookup_drop in H.
Qed.

Lemma getitem_lookup mm i b :
  0 <= i -> mm !! Z.to_nat i = Some b -> getitem mm i = Ok b.
Proof.
  intros Hi H. unfold getitem. destruct (Z.ltb_spec i 0); [lia|].
  destruct (Z.ltb_spec i 0); [lia|]. by rewrite H.
Qed.

(** What the forward pass does guarantee about a region start: it holds
    the byte 0x01, the byte [mm.find(b"\x01", ...)] looks for. *)
Lemma forward_region_start_is_x01 mm regions :
  find_regions_loose mm Forward = Ok regions ->
  Forall (fun r => getitem mm (region_start r) = Ok x01) regions.
Proof.
  apply forward_regions_Forall. intros sn nn en Hsn Hnn Hnn1 _ _ _.
  cbn [region_start].
  assert (Hm : 0 < MIN_NULL_START_REGION_SIZE) by done.
  destruct (find_found mm [x01] (sn + MIN_NULL_START_REGION_SIZE) nn
              ltac:(done) ltac:(lia) (eq_sym Hnn) Hnn1) as (Hn & _ & Hs & _).
  apply getitem_lookup; [lia|].
  replace (Z.to_nat nn) with (Z.to_nat nn + 0)%nat by lia.
  apply slice_lookup with (b := nn + len [x01]); [lia|unfold len; simpl; lia|].
  by rewrite Hs.
Qed.

(** C1, the code at the failing input: the null block found at offset 0
    ends at offset 10000, the byte there is 0x02, and yet the region the
    forward pass emits starts at offset 10001, at the first byte 0x01. *)
Theorem forward_region_start_skips_nonzero :
  find dump_stray_byte NULL_BLOCK_START 0 = 0
  /\ getitem dump_stray_byte (0 + MIN_NULL_START_REGION_SIZE) = Ok x02
  /\ find_regions_loose dump_stray_byte Forward = Ok [mkRegion 10001 35002 25001].
Proof. repeat split; vm_compute; reflexivity. Qed.

Lemma StronglySorted_lookup {A} (R : relation A) (l : list A) (i j : nat) x y :
  StronglySorted R l -> (i < j)%nat ->
  l !! i = Some x -> l !! j = Some y -> R x y.
Proof.
  intros Hl. revert i j. induction Hl as [|a l Hl IH Ha]; intros i j Hij Hi Hj.
  - by rewrite lookup_nil in Hi.
  - destruct j as [|j]; [lia|]. simpl in Hj. destruct i as [|i].
    + simpl in Hi. injection Hi as ->. rewrite Forall_forall in Ha.
      apply Ha. by eapply list_elem_of_lookup_2.
    + simpl in Hi. apply (IH i j); [lia|done|done].
Qed.

Lemma forward_regions_sorted mm regions :
  find_regions_loose mm Forward = Ok regions ->
  StronglySorted region_before regions.
Proof.
  unfold find_regions_loose. destruct (len mm =? 0); [done|]. intros Hrun.
  destruct (forward_loop_invariant mm (len mm)
              (fun pos regions =>
                 0 <= pos /\ StronglySorted region_before regions
                 /\ Forall (fun r => region_end r <= pos) regions)) with
    (3 := Hrun) as (_ & _ & H & _); [| |done].
  - intros pos rs sn nn en (Hpos & Hsorted & Hends) _ Hsn Hsn1 Hnn Hnn1 _ Hen Hen1.
    destruct (find_found mm _ pos _ NULL_BLOCK_START_nonempty Hpos (eq_sym Hsn) Hsn1)
      as (Hs & _).
    assert (Hm : 0 < MIN_NULL_START_REGION_SIZE) by done.
    destruct (find_found mm [x01] (sn + MIN_NULL_START_REGION_SIZE) nn
                ltac:(done) ltac:(lia) (eq_sym Hnn) Hnn1) as (Hn & _).
    destruct (find_found mm _ nn en NULL_BLOCK_END_nonempty ltac:(lia)
                (eq_sym Hen) Hen1) as (He & _).
    assert (Hends' : Forall (fun r => region_end r <= en + MIN_NULL_START_REGION_SIZE) rs).
    { eapply Forall_impl; [exact Hends|]. simpl. intros r Hr. lia. }
    split; [lia|].
    destruct ((MIN_REGION_SIZE <? en - nn) && (en - nn <=? MAX_REGION_SIZE));
      [|done].
    split.
    + apply StronglySorted_app_2; [|done|repeat constructor].
      intros r r' Hr ->%list_elem_of_singleton. unfold region_before. simpl.
      rewrite Forall_forall in Hends. specialize (Hends r Hr). lia.
    + apply Forall_app. split; [done|]. apply Forall_singleton. simpl. lia.
  - repeat split; [lia|constructor|constructor].
Qed.

(** C6: the regions of one forward pass are pairwise disjoint byte ranges:
    each region starts at or after the end of every region emitted before
    it, and no two of them overlap. *)
Theorem forward_regions_disjoint mm regions :
  find_regions_loose mm Forward = Ok regions ->
  (forall (i j : nat) r r',
     (i < j)%nat -> regions !! i = Some r -> regions !! j = Some r' ->
     region_end r <= region_start r')
  /\ (forall (i j : nat) r r',
        i <> j -> regions !! i = Some r -> regions !! j = Some r' ->
        ~ regions_overlap r r').
Proof.
  intros Hsorted%forward_regions_sorted.
  assert (Hlt : forall (i j : nat) r r',
             (i < j)%nat -> regions !! i = Some r -> regions !! j = Some r' ->
             region_end r <= region_start r').
  { intros i j r r' Hij Hi Hj.
    exact (StronglySorted_lookup region_before regions i j r r' Hsorted Hij Hi Hj). }
  split; [exact Hlt|].
  intros i j r r' Hij Hi Hj (k & Hk & Hk').
  destruct (Nat.lt_total i j) as [Hc|[Hc|Hc]]; [|done|].
  - specialize (Hlt i j r r' Hc Hi Hj). lia.
  - specialize (Hlt j i r' r Hc Hj Hi). lia.
Qed.

Lemma forward_regions_disjoint_witness :
  let r1 := mkRegion 10000 35001 25001 in
  let r2 := mkRegion 55001 80002 25001 in
  find_regions_loose dump_two_regions Forward = Ok [r1; r2]
  /\ region_end r1 <= region_start r2
  /\ ~ regions_overlap r1 r2.
Proof.
  intros r1 r2.
  assert (Hrun : find_regions_loose dump_two_regions Forward = Ok [r1; r2])
    by (vm_compute; reflexivity).
  split; [exact Hrun|].
  destruct (forward_regions_disjoint dump_two_regions [r1; r2] Hrun) as [Hlt Hno].
  split.
  - apply (Hlt 0%nat 1%nat); [lia|reflexivity|reflexivity].
  - apply (Hno 0%nat 1%nat); [lia|reflexivity|reflexivity].
Defined.

(** ** The key scanner: one lookahead search *)

Lemma find_seqZ_Some (f : Z -> bool) a n q :
  List.find f (seqZ a n) = Some q
  <-> a <= q < a + n /\ f q = true /\ forall j, a <= j < q -> f j = false.
Proof.
  destruct (Z.le_gt_cases n 0) as [Hn|Hn].
  { rewrite seqZ_nil by done. simpl. split; [done|lia]. }
  revert a. pattern n. apply Zlt_lower_bound_ind with (z := 1); [|lia].
  clear n Hn. intros n IH Hn a. rewrite seqZ_cons by lia. simpl.
  destruct (f a) eqn:Ea.
  - split.
    + intros [= <-]. repeat split; [lia|lia|done|lia].
    + intros (Hq & Hfq & Hfirst). f_equal.
      destruct (Z.eq_dec a q) as [|Hne]; [done|].
      rewrite (Hfirst a) in Ea by lia. done.
  - destruct (Z.eq_dec n 1) as [->|Hn1].
    + simpl. split; [done|]. intros (Hq & Hfq & _).
      replace q with a in Hfq by lia. congruence.
    + rewrite IH by lia. split.
      * intros (Hq & Hfq & Hfirst). repeat split; [lia|lia|done|].
        intros j Hj. destruct (Z.eq_dec j a) as [->|]; [done|].
        apply Hfirst. lia.
      * intros (Hq & Hfq & Hfirst). repeat split; [|lia|done|].
        -- destruct (Z.eq_dec q a) as [->|]; [congruence|lia].
        -- intros j Hj. apply Hfirst. lia.
Qed.

Lemma find_seqZ_None (f : Z -> bool) a n :
  List.find f (seqZ a n) = None <-> forall j, a <= j < a + n -> f j = false.
Proof.
  split.
  - intros Hnone j Hj. apply (find_none _ _ Hnone). apply list_elem_of_In.
    apply elem_of_seqZ. lia.
  - intros Hall. destruct (List.find f (seqZ a n)) as [q|] eqn:E; [|done].
    apply find_seqZ_Some in E as (Hq & Hfq & _). rewrite Hall in Hfq by done.
    done.
Qed.

Lemma find_next_Some mm region_end p candidate q :
  find_next mm region_end p candidate = Some q
  <-> next_sighting mm region_end candidate p q.
Proof.
  unfold find_next, range, next_sighting, in_lookahead, window.
  rewrite find_seqZ_Some, bool_decide_eq_true. split.
  - intros (Hq & Hw & Hfirst). repeat split; [lia|lia|done|].
    intros j Hj. specialize (Hfirst j ltac:(lia)).
    by apply bool_decide_eq_false in Hfirst.
  - intros (Hq & Hw & Hfirst). repeat split; [lia|lia|done|].
    intros j Hj. apply bool_decide_eq_false. apply Hfirst. lia.
Qed.

Lemma find_next_None mm region_end p candidate :
  find_next mm region_end p candidate = None
  <-> forall j, in_lookahead region_end p j -> window mm j <> candidate.
Proof.
  unfold find_next, range, in_lookahead, window. rewrite find_seqZ_None. split.
  - intros H j Hj. specialize (H j ltac:(lia)).
    by apply bool_decide_eq_false in H.
  - intros H j Hj. apply bool_decide_eq_false. apply H. lia.
Qed.

(** C4 (as amended): one lookahead search finds the candidate whenever it
    occurs at an offset j with
    scan_pos < j < min(scan_pos + LOOKAHEAD, region.end - KEY_SIZE): the
    search returns the first such occurrence, at or before j. *)
Theorem lookahead_finds_occurrence mm region_end scan_pos candidate j :
  scan_pos < j < Z.min (scan_pos + LOOKAHEAD) (region_end - AES_KEY_SIZE) ->
  slice mm j (j + AES_KEY_SIZE) = candidate ->
  exists q, find_next mm region_end scan_pos candidate = Some q
            /\ scan_pos < q <= j
            /\ slice mm q (q + AES_KEY_SIZE) = candidate.
Proof.
  intros Hj Hw.
  destruct (find_next mm region_end scan_pos candidate) as [q|] eqn:E.
  - apply find_next_Some in E as (Hq & Hwq & Hfirst). exists q.
    split; [done|]. split; [|done]. unfold in_lookahead in Hq.
    destruct (Z.le_gt_cases q j); [lia|]. destruct (Hfirst j); [lia|done].
  - rewrite find_next_None in E. destruct (E j); [|done].
    unfold in_lookahead. lia.
Qed.

Lemma lookahead_finds_occurrence_witness :
  let mm := dump_keys 50 10 in
  0 < 52 < Z.min (0 + LOOKAHEAD) (602 - AES_KEY_SIZE)
  /\ slice mm 52 (52 + AES_KEY_SIZE) = sample_key
  /\ exists q, find_next mm 602 0 sample_key = Some q
               /\ 0 < q <= 52
               /\ slice mm q (q + AES_KEY_SIZE) = sample_key.
Proof.
  intros mm.
  assert (H1 : 0 < 52 < Z.min (0 + LOOKAHEAD) (602 - AES_KEY_SIZE))
    by (vm_compute; split; reflexivity).
  assert (H2 : slice mm 52 (52 + AES_KEY_SIZE) = sample_key) by reflexivity.
  split; [exact H1|]. split; [exact H2|].
  exact (lookahead_finds_occurrence mm 602 0 sample_key 52 H1 H2).
Defined.

(** C4, the claim as stated fails: an occurrence at
    j = min(scan_pos + LOOKAHEAD, region.end - KEY_SIZE) is not examined,
    the range of the search excluding its upper end. *)
Lemma lookahead_misses_upper_end :
  let mm := dump_key_at_lookahead in
  let region_end := 332 in
  let scan_pos := 0 in
  let j := 300 in
  (scan_pos < j <= Z.min (scan_pos + LOOKAHEAD) (region_end - AES_KEY_SIZE))
  /\ slice mm j (j + AES_KEY_SIZE) = sample_key
  /\ slice mm scan_pos (scan_pos + AES_KEY_SIZE) = sample_key
  /\ find_next mm region_end scan_pos sample_key = None.
Proof.
  cbv zeta. split; [vm_compute; split; [reflexivity|discriminate]|].
  repeat split; vm_compute; reflexivity.
Qed.

(** ** The key scanner: periodicity verification *)

Lemma bind_Ok_inv {A B} (m : result A) (f : A -> result B) y :
  (x ← m; f x) = Ok y -> exists x, m = Ok x /\ f x = Ok y.
Proof. destruct m as [x|e]; [|done]. intros H. by exists x. Qed.

(** The verification loop always ends with a count, within its budget. *)
Lemma verify_loop_total fuel mm region_end candidate repeat_count scan_pos :
  REQUIRED_REPEATS - repeat_count <= Z.of_nat fuel ->
  exists n, verify_loop fuel mm region_end candidate repeat_count scan_pos = Ok n.
Proof.
  revert repeat_count scan_pos.
  induction fuel as [|fuel IH]; intros rc p Hfuel; cbn [verify_loop];
    destruct (Z.ltb_spec rc REQUIRED_REPEATS); try lia; try by eexists.
  destruct (find_next mm region_end p candidate); [|by eexists].
  apply IH. lia.
Qed.

(** A final count of REQUIRED_REPEATS means a full chain of sightings. *)
Lemma verify_loop_sightings fuel mm region_end candidate repeat_count scan_pos n :
  repeat_count <= REQUIRED_REPEATS ->
  verify_loop fuel mm region_end candidate repeat_count scan_pos = Ok n ->
  REQUIRED_REPEATS <= n ->
  sightings mm region_end candidate scan_pos
            (Z.to_nat (REQUIRED_REPEATS - repeat_count + 1)).
Proof.
  revert repeat_count scan_pos.
  induction fuel as [|fuel IH]; intros rc p Hrc; cbn [verify_loop];
    destruct (Z.ltb_spec rc REQUIRED_REPEATS) as [Hlt|Hge]; try done.
  - intros [= <-] _. replace (REQUIRED_REPEATS - rc + 1) with 1 by lia.
    apply sightings_first.
  - destruct (find_next mm region_end p candidate) as [q|] eqn:E.
    + intros Hrun Hn. apply find_next_Some in E.
      replace (Z.to_nat (REQUIRED_REPEATS - rc + 1))
        with (S (Z.to_nat (REQUIRED_REPEATS - (rc + 1) + 1))) by lia.
      apply sightings_next with (q := q); [done|].
      apply IH; [lia|done|done].
    + intros [= <-] Hn. lia.
  - intros [= <-] _. replace (REQUIRED_REPEATS - rc + 1) with 1 by lia.
    apply sightings_first.
Qed.

(** A chain that stops early leaves the count below REQUIRED_REPEATS. *)
Lemma verify_loop_stops fuel mm region_end candidate repeat_count scan_pos k n :
  chain_stops mm region_end candidate scan_pos k ->
  Z.of_nat k < REQUIRED_REPEATS - repeat_count + 1 ->
  verify_loop fuel mm region_end candidate repeat_count scan_pos = Ok n ->
  n < REQUIRED_REPEATS.
Proof.
  intros Hstops. revert fuel repeat_count.
  induction Hstops as [p Hnone|p q k Hnext Hstops IH]; intros fuel rc Hk;
    destruct fuel as [|fuel]; cbn [verify_loop];
    destruct (Z.ltb_spec rc REQUIRED_REPEATS) as [Hlt|Hge]; try done; try lia.
  - apply find_next_None in Hnone. rewrite Hnone. intros [= <-]. done.
  - apply find_next_Some in Hnext. rewrite Hnext. apply IH. lia.
Qed.

Section ScannerProperties.
Variable log2 : float -> float.
Variable mm : bytes.

(** What one pass of the scan loop does to the result set: nothing, or it
    adds the window at [i], and then all the acceptance conditions hold. *)
Lemma check_candidate_cases region i keys_found keys_found' :
  i <= Z.min (region_start region + MAX_INITIAL_SCAN_IN_REGION)
             (region_end region - AES_KEY_SIZE) - AES_KEY_SIZE ->
  check_candidate log2 mm (region_start region) (region_end region) i keys_found
  = Ok keys_found' ->
  keys_found' = keys_found
  \/ (keys_found' = {[window mm i]} ∪ keys_found
      /\ accepted_at log2 mm region i (window mm i)).
Proof.
  intros Hi. unfold check_candidate. fold (window mm i).
  intros (b0 & Hb0 & Hrun)%bind_Ok_inv.
  destruct (decide (b0 = x00)) as [|Hne]; [left; congruence|].
  destruct (Z.ltb_spec 2 (count (window mm i) x00)) as [|Hcount];
    [left; congruence|].
  destruct (Z.ltb_spec (i - 2) (region_start region)) as [|Hin];
    [left; cbn [orb] in Hrun; congruence|].
  destruct (bool_decide (slice mm (i - 2) i = [x00; x00])) eqn:Hpad;
    [|left; cbn [orb negb] in Hrun; congruence].
  apply bool_decide_eq_true in Hpad. cbn [orb negb] in Hrun.
  destruct (PrimFloat.leb AES_ENTROPY_THRESHOLD
              (shannon_entropy log2 (window mm i))) eqn:Hent;
    [|left; congruence].
  apply bind_Ok_inv in Hrun as (n & Hverify & Hrun).
  destruct (Z.leb_spec REQUIRED_REPEATS n) as [Hn|]; [|left; congruence].
  right. split; [congruence|].
  split; try done; [by exists b0|].
  apply verify_loop_sightings in Hverify; [|done|done].
  exact Hverify.
Qed.

(** A chain of sightings that stops before REQUIRED_REPEATS: the window at
    [i] is not added. *)
Lemma check_candidate_rejects region_start region_end i k keys_found keys_found' :
  chain_stops mm region_end (window mm i) i k ->
  Z.of_nat k < REQUIRED_REPEATS ->
  check_candidate log2 mm region_start region_end i keys_found = Ok keys_found' ->
  keys_found' = keys_found.
Proof.
  intros Hstops Hk. unfold check_candidate. fold (window mm i).
  intros (b0 & Hb0 & Hrun)%bind_Ok_inv.
  destruct (decide (b0 = x00)) as [|Hne]; [congruence|].
  destruct (2 <? count (window mm i) x00); [congruence|].
  destruct ((i - 2 <? region_start)
            || negb (bool_decide (slice mm (i - 2) i = [x00; x00])));
    [congruence|].
  destruct (PrimFloat.leb _ _); [|congruence].
  apply bind_Ok_inv in Hrun as (n & Hverify & Hrun).
  apply verify_loop_stops with (k := k) in Hverify; [|done|lia].
  destruct (Z.leb_spec REQUIRED_REPEATS n); [lia|congruence].
Qed.

Lemma scan_loop_keys fuel region initial_end i keys_found keys_found' :
  initial_end = Z.min (region_start region + MAX_INITIAL_SCAN_IN_REGION)
                      (region_end region - AES_KEY_SIZE) ->
  scan_loop log2 fuel mm (region_start region) (region_end region) initial_end i
            keys_found = Ok keys_found' ->
  forall c, c ∈ keys_found' ->
            c ∈ keys_found \/ exists i', accepted_at log2 mm region i' c.
Proof.
  intros ->. revert i keys_found.
  induction fuel as [|fuel IH]; intros i keys_found; cbn [scan_loop];
    match goal with |- context [?a <=? ?b] => destruct (Z.leb_spec a b) as [Hi|Hi] end;
    try done; try (intros [= <-]; by left).
  intros (keys1 & Hcheck & Hrun)%bind_Ok_inv c Hc.
  destruct (IH _ _ Hrun c Hc) as [Hc1|Hacc]; [|by right].
  destruct (check_candidate_cases _ _ _ _ Hi Hcheck) as [->|[-> Hacc]];
    [by left|].
  apply elem_of_union in Hc1 as [->%elem_of_singleton|Hc1]; [|by left].
  right. by exists i.
Qed.

Lemma regions_loop_keys regions keys_found keys_found' :
  regions_loop log2 mm regions keys_found = Ok keys_found' ->
  forall c, c ∈ keys_found' ->
            c ∈ keys_found
            \/ exists region i, region ∈ regions /\ accepted_at log2 mm region i c.
Proof.
  revert keys_found. induction regions as [|region regions IH];
    intros keys_found; cbn [regions_loop].
  - intros [= <-] c Hc. by left.
  - intros (keys1 & Hregion & Hrun)%bind_Ok_inv c Hc.
    destruct (IH _ Hrun c Hc) as [Hc1|(r & i & Hr & Hacc)].
    + unfold scan_region in Hregion.
      apply bind_Ok_inv in Hregion as (i0 & _ & Hscan).
      destruct (scan_loop_keys _ _ _ _ _ _ eq_refl Hscan c Hc1) as [|[i Hacc]];
        [by left|].
      right. exists region, i. split; [apply list_elem_of_here|done].
    + right. exists r, i. split; [by apply list_elem_of_further|done].
Qed.

(** Every key of the result set was accepted at some offset of some region
    of the list. *)
Lemma find_aes_keys_accepted regions keys :
  find_aes_keys_in_regions log2 mm regions = Ok keys ->
  forall c, c ∈ keys ->
            exists region i, region ∈ regions /\ accepted_at log2 mm region i c.
Proof.
  unfold find_aes_keys_in_regions. destruct (len mm =? 0); [done|].
  intros Hrun c Hc.
  destruct (regions_loop_keys _ _ _ Hrun c Hc) as [Hempty|H]; [|done].
  by apply not_elem_of_empty in Hempty.
Qed.

End ScannerProperties.

(** ** The key scanner: what is accepted *)

(** When the slice [mm[i-2:i]] has two bytes they are [mm[i-2]] and
    [mm[i-1]], whatever the sign of the indices. *)
Lemma slice_two_getitem mm i x y :
  slice mm (i - 2) i = [x; y] ->
  getitem mm (i - 2) = Ok x /\ getitem mm (i - 1) = Ok y.
Proof.
  unfold slice. set (a := adjust_index (len mm) (i - 2)).
  set (b := adjust_index (len mm) i). intros H.
  assert (Hlen : length (take (Z.to_nat (b - a)) (drop (Z.to_nat a) mm)) = 2%nat)
    by (by rewrite H).
  rewrite length_take, length_drop in Hlen.
  assert (Hx : mm !! (Z.to_nat a + 0)%nat = Some x).
  { assert (H0 : take (Z.to_nat (b - a)) (drop (Z.to_nat a) mm) !! 0%nat = Some x)
      by (by rewrite H).
    apply lookup_take_Some in H0 as [H0 _]. by rewrite lookup_drop in H0. }
  assert (Hy : mm !! (Z.to_nat a + 1)%nat = Some y).
  { assert (H1 : take (Z.to_nat (b - a)) (drop (Z.to_nat a) mm) !! 1%nat = Some y)
      by (by rewrite H).
    apply lookup_take_Some in H1 as [H1 _]. by rewrite lookup_drop in H1. }
  assert (Hk : exists k, 0 <= k /\ Z.to_nat k = Z.to_nat a
                         /\ (if i - 2 <? 0 then i - 2 + len mm else i - 2) = k
                         /\ (if i - 1 <? 0 then i - 1 + len mm else i - 1) = k + 1).
  { subst a b. unfold adjust_index, len in *.
    destruct (Z.ltb_spec (i - 2) 0), (Z.ltb_spec i 0), (Z.ltb_spec (i - 1) 0);
      try lia.
    - exists (i - 2 + Z.of_nat (length mm)). lia.
    - exists (i - 2). lia. }
  destruct Hk as (k & Hk0 & Hka & Hk2 & Hk1).
  unfold getitem. rewrite Hk2, Hk1.
  destruct (Z.ltb_spec k 0); [lia|]. destruct (Z.ltb_spec (k + 1) 0); [lia|].
  rewrite Hka. replace (Z.to_nat a + 0)%nat with (Z.to_nat a) in Hx by lia.
  replace (Z.to_nat (k + 1)) with (Z.to_nat a + 1)%nat by lia.
  by rewrite Hx, Hy.
Qed.

(** C5: every candidate of the result set was accepted at an offset i of a
    region with i - 2 >= region.start and with both bytes before i, at
    i - 2 and i - 1, null. *)
Theorem candidates_preceded_by_nulls log2 mm regions keys c :
  find_aes_keys_in_regions log2 mm regions = Ok keys ->
  c ∈ keys ->
  exists region i,
    region ∈ regions
    /\ c = slice mm i (i + AES_KEY_SIZE)
    /\ region_start region <= i - 2
    /\ getitem mm (i - 2) = Ok x00
    /\ getitem mm (i - 1) = Ok x00.
Proof.
  intros Hrun Hc.
  destruct (find_aes_keys_accepted log2 mm regions keys Hrun c Hc)
    as (region & i & Hregion & Hacc).
  exists region, i. destruct Hacc as [Hw _ _ _ Hin Hpad _ _].
  apply slice_two_getitem in Hpad as [H2 H1]. done.
Qed.

Lemma candidates_preceded_by_nulls_witness :
  let mm := dump_keys 50 10 in
  let regions := [mkRegion 0 602 602] in
  find_aes_keys_in_regions log2_pow2 mm regions = Ok {[sample_key]}
  /\ sample_key ∈ ({[sample_key]} : gset bytes)
  /\ exists region i,
       region ∈ regions
       /\ sample_key = slice mm i (i + AES_KEY_SIZE)
       /\ region_start region <= i - 2
       /\ getitem mm (i - 2) = Ok x00
       /\ getitem mm (i - 1) = Ok x00.
Proof.
  intros mm regions.
  assert (Hrun : find_aes_keys_in_regions log2_pow2 mm regions = Ok {[sample_key]})
    by by_evaluation.
  assert (Hc : sample_key ∈ ({[sample_key]} : gset bytes))
    by (apply elem_of_singleton; reflexivity).
  split; [exact Hrun|]. split; [exact Hc|].
  exact (candidates_preceded_by_nulls log2_pow2 mm regions _ sample_key Hrun Hc).
Defined.

(** C3: a window is in the result set only if it is sighted
    REQUIRED_REPEATS times in total, first at the offset where it is read and
    then each time by the bounded lookahead search that starts just past the
    previous sighting; and where the chain of sightings from an offset stops
    before REQUIRED_REPEATS, the pass at that offset adds nothing. *)
Theorem repeats_required log2 mm regions keys :
  find_aes_keys_in_regions log2 mm regions = Ok keys ->
  (forall c, c ∈ keys ->
     exists region i,
       region ∈ regions
       /\ c = slice mm i (i + AES_KEY_SIZE)
       /\ sightings mm (region_end region) c i (Z.to_nat REQUIRED_REPEATS))
  /\ (forall region i k keys_found keys_found',
        chain_stops mm (region_end region) (slice mm i (i + AES_KEY_SIZE)) i k ->
        Z.of_nat k < REQUIRED_REPEATS ->
        check_candidate log2 mm (region_start region) (region_end region) i
                        keys_found = Ok keys_found' ->
        keys_found' = keys_found).
Proof.
  intros Hrun. split.
  - intros c Hc.
    destruct (find_aes_keys_accepted log2 mm regions keys Hrun c Hc)
      as (region & i & Hregion & Hacc).
    exists region, i. by destruct Hacc.
  - intros region i k ks ks' Hstops Hk Hcheck.
    by eapply check_candidate_rejects.
Qed.

Lemma repeats_required_witness :
  let mm := dump_keys 50 10 in
  let regions := [mkRegion 0 602 602] in
  find_aes_keys_in_regions log2_pow2 mm regions = Ok {[sample_key]}
  /\ (forall c, c ∈ ({[sample_key]} : gset bytes) ->
        exists region i,
          region ∈ regions
          /\ c = slice mm i (i + AES_KEY_SIZE)
          /\ sightings mm (region_end region) c i (Z.to_nat REQUIRED_REPEATS))
  /\ (forall region i k keys_found keys_found',
        chain_stops mm (region_end region) (slice mm i (i + AES_KEY_SIZE)) i k ->
        Z.of_nat k < REQUIRED_REPEATS ->
        check_candidate log2_pow2 mm (region_start region) (region_end region) i
                        keys_found = Ok keys_found' ->
        keys_found' = keys_found).
Proof.
  intros mm regions.
  assert (Hrun : find_aes_keys_in_regions log2_pow2 mm regions = Ok {[sample_key]})
    by by_evaluation.
  split; [exact Hrun|].
  exact (repeats_required log2_pow2 mm regions _ Hrun).
Defined.

(** Ten copies of the key, 50 bytes apart, are accepted; nine are not. *)
Example scan_ten_copies :
  find_aes_keys_in_regions log2_pow2 (dump_keys 50 10) [mkRegion 0 602 602]
  = Ok {[sample_key]}.
Proof. by_evaluation. Qed.

Example scan_nine_copies :
  find_aes_keys_in_regions log2_pow2 (dump_keys 50 9) [mkRegion 0 552 552] = Ok ∅.
Proof. by_evaluation. Qed.

(** Ten copies LOOKAHEAD - 1 bytes apart are accepted; ten copies exactly
    LOOKAHEAD bytes apart are not: each next copy sits at the excluded upper
    end of the lookahead range. *)
Example scan_copies_within_lookahead :
  find_aes_keys_in_regions log2_pow2 (dump_keys (LOOKAHEAD - 1) 10)
                           [mkRegion 0 3092 3092]
  = Ok {[sample_key]}.
Proof. by_evaluation. Qed.

Example scan_copies_at_lookahead_distance :
  find_aes_keys_in_regions log2_pow2 (dump_keys LOOKAHEAD 10) [mkRegion 0 3102 3102]
  = Ok ∅.
Proof. by_evaluation. Qed.

(** ** The orchestrator *)

Section MainProperties.
Variable log2 : float -> float.
Variable parsed : Parsed.
Variable mm : bytes.

(** The three ways one pass of the loop over [scan_steps] can go: no
    regions (continue), regions without keys (fall through to the next
    pass), regions with keys (break). *)
Lemma steps_loop_cons mode steps keys log keys' log' :
  steps_loop log2 parsed mm (mode :: steps) keys log = Ok (keys', log') ->
  (run_scan_func parsed mm mode = Ok []
   /\ steps_loop log2 parsed mm steps keys (log ++ [Discover mode []])
      = Ok (keys', log'))
  \/ (exists regions,
        regions <> []
        /\ run_scan_func parsed mm mode = Ok regions
        /\ find_aes_keys_in_regions log2 mm regions = Ok ∅
        /\ steps_loop log2 parsed mm steps ∅
             (log ++ [Discover mode regions; Scan regions ∅])
           = Ok (keys', log'))
  \/ (exists regions,
        regions <> []
        /\ run_scan_func parsed mm mode = Ok regions
        /\ find_aes_keys_in_regions log2 mm regions = Ok keys'
        /\ keys' <> ∅
        /\ log' = log ++ [Discover mode regions; Scan regions keys']).
Proof.
  cbn [steps_loop]. intros (regions & Hscan & Hrun)%bind_Ok_inv.
  destruct regions as [|r regions]; [by left|]. right.
  apply bind_Ok_inv in Hrun as (keys1 & Hkeys & Hrun).
  rewrite <- app_assoc in Hrun. cbn [app] in Hrun.
  destruct (decide (keys1 = ∅)) as [->|Hne].
  - left. by exists (r :: regions).
  - right. injection Hrun as <- <-. by exists (r :: regions).
Qed.




End MainProperties.


(** A file without a null block: all three strategies are attempted, none
    yields a region, and no keys are reported. *)
Example main_exhausts_strategies :
  main log2_pow2 (ParsedDump None) (key_copies 50 10)
  = Ok ([Discover None []; Discover (Some Forward) [];
         Discover (Some Backward) []], NoKeysFound).
Proof. by_evaluation. Qed.

(** When the parser raises, the run ends with its exception: nothing is
    scanned and nothing reported. *)
Example main_parser_raises log2 mm : main log2 ParseRaises mm = Raise ParserError.
Proof. reflexivity. Qed.

(** ** The key scanner never exhausts its loop budgets *)

Lemma getitem_raises mm i e : getitem mm i = Raise e -> e = IndexError.
Proof.
  unfold getitem. destruct (_ <? 0); [congruence|].
  destruct (mm !! _); congruence.
Qed.

Lemma skip_nulls_fuel fuel mm initial_end i :
  initial_end - i <= Z.of_nat fuel ->
  skip_nulls fuel mm initial_end i <> Raise OutOfFuel.
Proof.
  revert i. induction fuel as [|fuel IH]; intros i Hfuel; cbn [skip_nulls];
    destruct (Z.ltb_spec i initial_end); try done; try lia.
  destruct (getitem mm i) as [b|e] eqn:E.
  - cbn. destruct (decide (b = x00)); [|done]. apply IH. lia.
  - apply getitem_raises in E as ->. done.
Qed.

Section ScannerFuel.
Variable log2 : float -> float.
Variable mm : bytes.

Lemma check_candidate_fuel region_start region_end i keys_found :
  check_candidate log2 mm region_start region_end i keys_found <> Raise OutOfFuel.
Proof.
  unfold check_candidate.
  destruct (getitem (slice mm i (i + AES_KEY_SIZE)) 0) as [b0|e] eqn:E;
    [|apply getitem_raises in E as ->; done].
  cbn [mbind result_bind]. destruct (decide (b0 = x00)) as [|Hne]; [done|].
  destruct (2 <? _); [done|]. destruct (_ || _); [done|].
  destruct (PrimFloat.leb _ _); [|done].
  destruct (verify_loop_total (Z.to_nat REQUIRED_REPEATS) mm region_end
              (slice mm i (i + AES_KEY_SIZE)) 1 i) as [n ->]; [done|].
  cbn [mbind result_bind]. by destruct (REQUIRED_REPEATS <=? n).
Qed.

Lemma scan_loop_fuel fuel region_start region_end initial_end i keys_found :
  initial_end - AES_KEY_SIZE - i + 1 <= Z.of_nat fuel ->
  scan_loop log2 fuel mm region_start region_end initial_end i keys_found
  <> Raise OutOfFuel.
Proof.
  revert i keys_found.
  induction fuel as [|fuel IH]; intros i keys_found Hfuel; cbn [scan_loop];
    destruct (Z.leb_spec i (initial_end - AES_KEY_SIZE)); try done; try lia.
  pose proof (check_candidate_fuel region_start region_end i keys_found) as Hc.
  destruct (check_candidate _ _ _ _ _ _) as [keys1|e]; [|by destruct e].
  cbn [mbind result_bind]. apply IH. lia.
Qed.

(** The budgets of the scanner's loops suffice: scanning a region list
    returns the set of keys or raises one of Python's exceptions. *)
Lemma find_aes_keys_in_regions_fuel regions :
  find_aes_keys_in_regions log2 mm regions <> Raise OutOfFuel.
Proof.
  unfold find_aes_keys_in_regions. destruct (len mm =? 0); [done|].
  generalize (∅ : gset bytes).
  induction regions as [|region regions IH]; intros keys_found;
    cbn [regions_loop]; [done|].
  assert (Hregion : scan_region log2 mm region keys_found <> Raise OutOfFuel).
  { unfold scan_region.
    set (initial_end := Z.min _ _).
    pose proof (skip_nulls_fuel (Z.to_nat (initial_end - region_start region))
                  mm initial_end (region_start region) ltac:(lia)) as Hskip.
    destruct (skip_nulls _ _ _ _) as [i|e]; [|by destruct e].
    cbn [mbind result_bind]. apply scan_loop_fuel. lia. }
  destruct (scan_region _ _ _ _) as [keys1|e]; [|by destruct e].
  cbn [mbind result_bind]. apply IH.
Qed.

End ScannerFuel.

(** * Further properties *)

(** ** Heuristic discovery: how the regions are framed *)

Lemma NULL_BLOCK_START_END : NULL_BLOCK_START = NULL_BLOCK_END.
Proof. reflexivity. Qed.

(** [mm.find] returns -1 when the bytes occur nowhere. *)
Lemma find_absent mm sub start :
  0 <= start ->
  (forall k, start <= k -> slice mm k (k + len sub) <> sub) ->
  find mm sub start = -1.
Proof.
  intros Hstart Hno. unfold find. pose proof (len_nonneg mm) as Hl.
  rewrite adjust_index_nonneg by lia.
  set (s := Z.min start (len mm)).
  destruct (find_from_cases sub (drop (Z.to_nat s) mm) s)
    as [[E _]|(n & E & Hn & _)]; [done|].
  rewrite drop_drop in Hn.
  replace (Z.to_nat s + n)%nat with (Z.to_nat (s + Z.of_nat n)) in Hn by lia.
  pose proof (startswith_length _ _ Hn) as Hlen. rewrite length_drop in Hlen.
  apply startswith_slice in Hn; [|lia].
  destruct (Z.le_gt_cases start (s + Z.of_nat n)) as [Hle|Hgt].
  - by destruct (Hno (s + Z.of_nat n)).
  - (* start beyond the end of the file: only the empty needle is found *)
    assert (sub = []) as ->.
    { destruct sub; [done|]. simpl in Hlen. unfold len in *. lia. }
    destruct (Hno start); [lia|]. unfold slice, len. simpl.
    rewrite Z.add_0_r. by rewrite Z.sub_diag, take_0.
Qed.

Lemma getitem_inv mm i b :
  0 <= i -> getitem mm i = Ok b -> mm !! Z.to_nat i = Some b.
Proof.
  intros Hi. unfold getitem. destruct (Z.ltb_spec i 0); [lia|].
  destruct (Z.ltb_spec i 0); [lia|]. by destruct (mm !! Z.to_nat i) as [?|]; intros [= <-].
Qed.

Lemma slice_one mm k b :
  0 <= k -> (slice mm k (k + 1) = [b] <-> getitem mm k = Ok b).
Proof.
  intros Hk. rewrite slice_nonneg by lia.
  replace (Z.to_nat (k + 1 - k)) with 1%nat by lia. split.
  - intros H. apply getitem_lookup; [done|].
    assert (H0 : take 1 (drop (Z.to_nat k) mm) !! 0%nat = Some b) by (by rewrite H).
    apply lookup_take_Some in H0 as [H0 _]. rewrite lookup_drop in H0.
    by rewrite Nat.add_0_r in H0.
  - intros H%getitem_inv; [|done].
    rewrite (drop_S _ _ _ H). reflexivity.
Qed.

Lemma forward_loop_frames mm regions :
  find_regions_loose mm Forward = Ok regions -> Forall (forward_framed mm) regions.
Proof.
  unfold find_regions_loose. destruct (len mm =? 0); [done|]. intros Hrun.
  destruct (forward_loop_invariant mm (len mm)
              (fun pos regions => 0 <= pos /\ Forall (forward_framed mm) regions))
    with (3 := Hrun) as (_ & _ & H); [|done|done].
  intros pos rs sn nn en [Hpos HF] _ Hsn Hsn1 Hnn Hnn1 _ Hen Hen1.
  destruct (find_found mm _ pos _ NULL_BLOCK_START_nonempty Hpos (eq_sym Hsn) Hsn1)
    as (Hs & _ & Hsb & _).
  assert (Hm : 0 < MIN_NULL_START_REGION_SIZE) by done.
  destruct (find_found mm [x01] (sn + MIN_NULL_START_REGION_SIZE) nn
              ltac:(done) ltac:(lia) (eq_sym Hnn) Hnn1) as (Hn & _ & Hnb & Hnfirst).
  destruct (find_found mm _ nn en NULL_BLOCK_END_nonempty ltac:(lia) (eq_sym Hen) Hen1)
    as (He & Hein & Heb & Hefirst).
  assert (Hl : len NULL_BLOCK_END = MIN_NULL_END_REGION_SIZE).
  { unfold len, NULL_BLOCK_END. by rewrite length_replicate. }
  assert (Hl' : len NULL_BLOCK_START = MIN_NULL_END_REGION_SIZE).
  { unfold len, NULL_BLOCK_START. by rewrite length_replicate. }
  rewrite Hl in *. rewrite Hl' in *.
  split; [lia|].
  destruct (Z.ltb_spec MIN_REGION_SIZE (en - nn)); [|done].
  destruct (Z.leb_spec (en - nn) MAX_REGION_SIZE); [|done].
  cbn [andb]. apply Forall_app. split; [done|]. apply Forall_singleton.
  exists sn. cbn [region_start region_end region_size].
  split; [split; [lia|by rewrite <- NULL_BLOCK_START_END]|].
  split; [done|]. split.
  { intros k Hk Hget. apply (Hnfirst k); [lia|].
    change (len [x01]) with 1. apply slice_one; [lia|done]. }
  split; [apply slice_one; [lia|done]|].
  split; [split; [lia|done]|].
  split; [|split; [lia|done]].
  intros k Hk [_ Hblock]. by apply (Hefirst k).
Qed.

Lemma count_le_len data b : count data b <= len data.
Proof. unfold count, len. pose proof (length_filter (fun x => x = b) data). lia. Qed.

Lemma slice_len_le mm a b : 0 <= a -> a <= b -> len (slice mm a b) <= b - a.
Proof.
  intros Ha Hab. rewrite slice_nonneg by done. unfold len.
  rewrite length_take. lia.
Qed.

Lemma backward_loop_frames mm regions :
  find_regions_loose mm Backward = Ok regions ->
  Forall (backward_framed mm) regions /\ StronglySorted region_ends_apart regions.
Proof.
  unfold find_regions_loose. destruct (len mm =? 0); [done|]. intros Hrun.
  destruct (backward_loop_invariant mm (len mm)
              (fun pos regions =>
                 0 <= pos /\ Forall (backward_framed mm) regions
                 /\ StronglySorted region_ends_apart regions
                 /\ Forall (fun r => region_end r + MIN_NULL_END_REGION_SIZE <= pos)
                           regions))
    with (3 := Hrun) as (_ & _ & H1 & H2 & _); [| |done].
  - intros pos rs en rstart cs (Hpos & HF & Hsorted & Hends) _ Hen Hen1 -> ->.
    destruct (find_found mm _ pos en NULL_BLOCK_END_nonempty Hpos (eq_sym Hen) Hen1)
      as (He & Hein & Heb & _).
    assert (Hl : len NULL_BLOCK_END = MIN_NULL_END_REGION_SIZE).
    { unfold len, NULL_BLOCK_END. by rewrite length_replicate. }
    rewrite Hl in *.
    assert (Hm : 0 < MIN_NULL_END_REGION_SIZE) by done.
    assert (Hends' : Forall (fun r => region_end r + MIN_NULL_END_REGION_SIZE
                                      <= en + MIN_NULL_END_REGION_SIZE) rs).
    { eapply Forall_impl; [exact Hends|]. simpl. intros r Hr. lia. }
    split; [lia|].
    destruct (Z.eqb_spec
                (count (slice mm (Z.max (Z.max 0 (en - AVERAGE_REGION_SIZE))
                                        (en - PRE_NULL_CHECK)) en) x00)
                (en - Z.max (Z.max 0 (en - AVERAGE_REGION_SIZE)) (en - PRE_NULL_CHECK)))
      as [|Hcount]; [done|].
    destruct (Z.leb_spec MIN_REGION_SIZE (en - Z.max 0 (en - AVERAGE_REGION_SIZE)))
      as [Hsize|]; [|done].
    assert (Hcs : Z.max (Z.max 0 (en - AVERAGE_REGION_SIZE)) (en - PRE_NULL_CHECK)
                  = en - PRE_NULL_CHECK).
    { unfold MIN_REGION_SIZE, AVERAGE_REGION_SIZE, PRE_NULL_CHECK in *. lia. }
    rewrite Hcs in Hcount.
    split; [|split].
    + apply Forall_app. split; [done|]. apply Forall_singleton.
      unfold backward_framed. cbn [region_start region_end].
      split; [split; [lia|done]|]. split; [done|]. split; [lia|].
      pose proof (count_le_len (slice mm (en - PRE_NULL_CHECK) en) x00).
      pose proof (slice_len_le mm (en - PRE_NULL_CHECK) en).
      unfold MIN_REGION_SIZE, AVERAGE_REGION_SIZE, PRE_NULL_CHECK in *. lia.
    + apply StronglySorted_app_2; [|done|repeat constructor].
      intros r r' Hr ->%list_elem_of_singleton. unfold region_ends_apart. simpl.
      rewrite Forall_forall in Hends. specialize (Hends r Hr). lia.
    + apply Forall_app. split; [done|]. apply Forall_singleton. simpl. lia.
  - repeat split; [lia|constructor|constructor|constructor].
Qed.

(** Evaluations of the finders on the sample files, shared below. *)
Lemma forward_on_two_regions :
  find_regions_loose dump_two_regions Forward
  = Ok [mkRegion 10000 35001 25001; mkRegion 55001 80002 25001].
Proof. vm_compute. reflexivity. Qed.

Lemma backward_on_two_regions :
  find_regions_loose dump_two_regions Backward
  = Ok [mkRegion 0 35001 35001; mkRegion 0 80002 80002].
Proof. vm_compute. reflexivity. Qed.

(** X1: heuristic discovery returns a region list for every file that is
    not empty, in both modes: each pass of its loop moves the cursor on by
    at least one null block. *)
Theorem heuristic_discovery_returns mm scan_mode :
  mm <> [] -> exists regions, find_regions_loose mm scan_mode = Ok regions.
Proof. apply find_regions_loose_terminates. Qed.

Lemma heuristic_discovery_returns_witness :
  sample_key <> []
  /\ exists regions, find_regions_loose sample_key Backward = Ok regions.
Proof.
  assert (H : sample_key <> []) by discriminate.
  split; [exact H|]. exact (heuristic_discovery_returns sample_key Backward H).
Defined.

(** X2: a region of the forward pass starts at a byte 0x01 that follows a
    null block and bytes other than 0x01, ends where the first null block
    at or after its start begins, holds no null block itself, and that
    closing null block lies inside the file. *)
Theorem forward_regions_framed mm regions :
  find_regions_loose mm Forward = Ok regions ->
  Forall (forward_framed mm) regions.
Proof. apply forward_loop_frames. Qed.

Lemma forward_regions_framed_witness :
  find_regions_loose dump_two_regions Forward
  = Ok [mkRegion 10000 35001 25001; mkRegion 55001 80002 25001]
  /\ Forall (forward_framed dump_two_regions)
            [mkRegion 10000 35001 25001; mkRegion 55001 80002 25001].
Proof.
  split; [exact forward_on_two_regions|].
  exact (forward_regions_framed dump_two_regions _ forward_on_two_regions).
Defined.

(** X3: a region of the backward pass ends where a null block begins, that
    null block lies inside the file, the region starts inside the file, and
    the PRE_NULL_CHECK bytes before its end are not all null. *)
Theorem backward_regions_framed mm regions :
  find_regions_loose mm Backward = Ok regions ->
  Forall (backward_framed mm) regions.
Proof. intros H. by apply backward_loop_frames. Qed.

Lemma backward_regions_framed_witness :
  find_regions_loose dump_two_regions Backward
  = Ok [mkRegion 0 35001 35001; mkRegion 0 80002 80002]
  /\ Forall (backward_framed dump_two_regions)
            [mkRegion 0 35001 35001; mkRegion 0 80002 80002].
Proof.
  split; [exact backward_on_two_regions|].
  exact (backward_regions_framed dump_two_regions _ backward_on_two_regions).
Defined.

(** X4: the regions of the backward pass come in the order of their ends,
    each end at least a null block after the end before it, and their
    starts never decrease. *)
Theorem backward_regions_ordered mm regions :
  find_regions_loose mm Backward = Ok regions ->
  forall (i j : nat) r r',
    (i < j)%nat -> regions !! i = Some r -> regions !! j = Some r' ->
    region_end r + MIN_NULL_END_REGION_SIZE <= region_end r'
    /\ region_start r <= region_start r'.
Proof.
  intros Hrun i j r r' Hij Hi Hj.
  pose proof (backward_loop_frames mm regions Hrun) as [_ Hsorted].
  pose proof (StronglySorted_lookup region_ends_apart regions i j r r'
                Hsorted Hij Hi Hj) as Hends.
  unfold region_ends_apart in Hends. split; [done|].
  assert (Hstart : forall r0, r0 ∈ regions ->
            region_start r0 = Z.max 0 (region_end r0 - AVERAGE_REGION_SIZE)).
  { apply Forall_forall. eapply backward_regions_Forall; [|exact Hrun].
    intros en rs _ -> _. reflexivity. }
  rewrite (Hstart r), (Hstart r') by (by eapply list_elem_of_lookup_2).
  assert (0 < MIN_NULL_END_REGION_SIZE) by done. lia.
Qed.

Lemma backward_regions_ordered_witness :
  find_regions_loose dump_two_regions Backward
  = Ok [mkRegion 0 35001 35001; mkRegion 0 80002 80002]
  /\ region_end (mkRegion 0 35001 35001) + MIN_NULL_END_REGION_SIZE
     <= region_end (mkRegion 0 80002 80002)
  /\ region_start (mkRegion 0 35001 35001) <= region_start (mkRegion 0 80002 80002).
Proof.
  split; [exact backward_on_two_regions|].
  apply (backward_regions_ordered dump_two_regions _ backward_on_two_regions
           0%nat 1%nat); [lia|reflexivity|reflexivity].
Defined.

Lemma forward_framed_in_file mm r :
  forward_framed mm r ->
  0 <= region_start r
  /\ region_end r + MIN_NULL_END_REGION_SIZE <= len mm
  /\ region_size r = region_end r - region_start r.
Proof.
  intros (sn & [Hsn _] & Hs & _ & _ & _ & _ & He & Hsize).
  assert (0 < MIN_NULL_START_REGION_SIZE) by done. repeat split; [lia|done|done].
Qed.

(** The regions of heuristic discovery are well formed and inside the
    file, in both modes. *)
Lemma loose_regions_in_file mm scan_mode regions :
  find_regions_loose mm scan_mode = Ok regions ->
  Forall (fun r => 0 <= region_start r
                   /\ region_start r < region_end r
                   /\ region_end r + MIN_NULL_END_REGION_SIZE <= len mm
                   /\ region_size r = region_end r - region_start r) regions.
Proof.
  intros Hrun. destruct scan_mode.
  - pose proof (forward_loop_frames mm regions Hrun) as Hframed.
    pose proof (forward_regions_Forall mm
                  (fun r => region_start r < region_end r) regions) as Hlt.
    assert (Hlt' : Forall (fun r => region_start r < region_end r) regions).
    { apply Hlt; [|done]. intros sn nn en _ _ _ _ _ Hsize. simpl.
      unfold MIN_REGION_SIZE in Hsize. lia. }
    rewrite Forall_forall in *. intros r Hr.
    destruct (forward_framed_in_file mm r (Hframed r Hr)) as (H1 & H2 & H3).
    specialize (Hlt' r Hr). done.
  - pose proof (backward_loop_frames mm regions Hrun) as [Hframed _].
    pose proof (backward_regions_Forall mm
                  (fun r => region_start r < region_end r
                            /\ region_size r = region_end r - region_start r)
                  regions) as Hlt.
    rewrite Forall_forall in *. intros r Hr.
    destruct (Hframed r Hr) as (_ & H2 & H1 & _).
    destruct (Hlt ltac:(intros en rs _ -> Hsize; simpl;
                        unfold MIN_REGION_SIZE in Hsize; lia) Hrun r Hr).
    done.
Qed.

(** X5: every region of the three finders has size = end - start and
    start < end; a region of heuristic discovery, in either mode, starts
    inside the file and ends at least a null block before the end of the
    file. *)
Theorem regions_well_formed mm scan_mode segs regions :
  find_regions_loose mm scan_mode = Ok regions ->
  Forall (fun r => 0 <= region_start r
                   /\ region_start r < region_end r
                   /\ region_end r + MIN_NULL_END_REGION_SIZE <= len mm
                   /\ region_size r = region_end r - region_start r) regions
  /\ Forall (fun r => region_start r < region_end r
                      /\ region_size r = region_end r - region_start r)
            (find_regions_from_minidump segs).
Proof.
  intros Hrun. split; [by eapply loose_regions_in_file|].
  destruct segs as [segs|]; [|constructor]. simpl.
  rewrite minidump_loop_filter. simpl. apply Forall_forall.
  intros r (seg & -> & Hseg)%list_elem_of_fmap.
  apply list_elem_of_filter in Hseg as [Hb _]. simpl.
  apply andb_true_iff in Hb as [H1%Z.ltb_lt _].
  unfold MIN_REGION_SIZE in H1. lia.
Qed.

Lemma regions_well_formed_witness :
  find_regions_loose dump_two_regions Forward
  = Ok [mkRegion 10000 35001 25001; mkRegion 55001 80002 25001]
  /\ Forall (fun r => 0 <= region_start r
                   /\ region_start r < region_end r
                   /\ region_end r + MIN_NULL_END_REGION_SIZE <= len dump_two_regions
                   /\ region_size r = region_end r - region_start r)
         [mkRegion 10000 35001 25001; mkRegion 55001 80002 25001]
  /\ Forall (fun r => region_start r < region_end r
                      /\ region_size r = region_end r - region_start r)
            (find_regions_from_minidump (Some [mkSegment 7 30000])).
Proof.
  split; [exact forward_on_two_regions|].
  exact (regions_well_formed dump_two_regions Forward (Some [mkSegment 7 30000]) _
           forward_on_two_regions).
Defined.

(** ** Heuristic discovery: files without regions *)

Lemma short_file_no_null_block mm k :
  len mm < MIN_NULL_END_REGION_SIZE -> ~ null_block_at mm k.
Proof.
  intros Hshort [Hk Hblock]. apply (f_equal length) in Hblock.
  unfold NULL_BLOCK_END in Hblock. rewrite length_replicate in Hblock.
  assert (Hm : 0 < MIN_NULL_END_REGION_SIZE) by done.
  rewrite slice_nonneg in Hblock by lia.
  rewrite length_take, length_drop in Hblock. unfold len in *. lia.
Qed.

(** X6: a file that is not empty and holds no null block has no regions,
    in either mode of heuristic discovery; so has every file shorter than
    a null block. *)
Theorem no_null_block_no_regions mm scan_mode :
  mm <> [] -> (forall k, ~ null_block_at mm k) ->
  find_regions_loose mm scan_mode = Ok [].
Proof.
  intros Hmm Hno. unfold find_regions_loose.
  destruct (Z.eqb_spec (len mm) 0) as [E|Hlen].
  { destruct mm; [done|]. unfold len in E. simpl in E. lia. }
  assert (Hfind : find mm NULL_BLOCK_END 0 = -1).
  { apply find_absent; [done|]. intros k Hk Hblock. apply (Hno k).
    split; [done|]. revert Hblock. unfold len, NULL_BLOCK_END.
    by rewrite length_replicate, Z2Nat.id. }
  destruct mm as [|b mm]; [done|].
  assert (Hpos : 0 < len (b :: mm)) by (unfold len; simpl; lia).
  destruct scan_mode; cbn [length forward_loop backward_loop];
    destruct (Z.ltb_spec 0 (len (b :: mm))); try lia.
  - rewrite NULL_BLOCK_START_END, Hfind. reflexivity.
  - rewrite Hfind. reflexivity.
Qed.

Lemma no_null_block_no_regions_witness :
  sample_key <> []
  /\ (forall k, ~ null_block_at sample_key k)
  /\ find_regions_loose sample_key Forward = Ok [].
Proof.
  assert (H1 : sample_key <> []) by discriminate.
  assert (H2 : forall k, ~ null_block_at sample_key k).
  { intros k. apply short_file_no_null_block. reflexivity. }
  split; [exact H1|]. split; [exact H2|].
  exact (no_null_block_no_regions sample_key Forward H1 H2).
Defined.

Lemma slice_elem_of mm a b x : x ∈ slice mm a b -> x ∈ mm.
Proof.
  unfold slice. intros H. by apply subseteq_take, subseteq_drop in H.
Qed.

(** X7: the forward pass finds no region in a file without a byte 0x01,
    whatever else the file holds: the region start is searched as the
    byte 0x01. *)
Theorem forward_needs_byte_x01 mm :
  mm <> [] -> x01 ∉ mm -> find_regions_loose mm Forward = Ok [].
Proof.
  intros Hmm Hno. unfold find_regions_loose.
  destruct (Z.eqb_spec (len mm) 0) as [E|Hlen].
  { destruct mm; [done|]. unfold len in E. simpl in E. lia. }
  destruct mm as [|b mm]; [done|].
  cbn [length forward_loop].
  destruct (Z.ltb_spec 0 (len (b :: mm))); [|done].
  destruct (Z.eqb_spec (find (b :: mm) NULL_BLOCK_START 0) (-1)) as [|Hs]; [done|].
  destruct (find_found (b :: mm) _ 0 _ NULL_BLOCK_START_nonempty ltac:(done)
              eq_refl Hs) as (Hs0 & _).
  assert (Hm : 0 < MIN_NULL_START_REGION_SIZE) by done.
  rewrite (find_absent (b :: mm) [x01]); [done|lia|].
  intros k Hk Hslice. apply Hno. apply (slice_elem_of _ k (k + len [x01])).
  rewrite Hslice. apply list_elem_of_here.
Qed.

Lemma forward_needs_byte_x01_witness :
  dump_no_x01 <> []
  /\ (x01 ∉ dump_no_x01)
  /\ find_regions_loose dump_no_x01 Forward = Ok [].
Proof.
  assert (H1 : dump_no_x01 <> []).
  { intros H. apply (f_equal (fun l => l !! 0%nat)) in H.
    vm_compute in H. discriminate H. }
  assert (H2 : x01 ∉ dump_no_x01).
  { unfold dump_no_x01, run. rewrite !elem_of_app, !elem_of_replicate.
    intros [[H _]|[[H _]|[H _]]]; discriminate H. }
  split; [exact H1|]. split; [exact H2|].
  exact (forward_needs_byte_x01 dump_no_x01 H1 H2).
Defined.

(** ** The histogram and the entropy *)

Lemma count_cons a data b :
  count (a :: data) b = (if decide (a = b) then 1 else 0) + count data b.
Proof.
  unfold count. rewrite filter_cons. destruct (decide (a = b)); simpl; lia.
Qed.

Lemma byte_to_nat_inj a b : Byte.to_nat a = Byte.to_nat b -> a = b.
Proof.
  intros H. apply (f_equal Byte.of_nat) in H. rewrite !Byte.of_to_nat in H.
  by injection H.
Qed.

Lemma histogram_foldl (data : bytes) (freq : list Z) (b : byte) :
  foldl (fun (freq : list Z) b => alter Z.succ (Byte.to_nat b) freq) freq data
  !! Byte.to_nat b
  = (fun c => c + count data b) <$> (freq !! Byte.to_nat b).
Proof.
  revert freq. induction data as [|a data IH]; intros freq; simpl.
  - destruct (freq !! Byte.to_nat b); simpl; [f_equal; unfold count; simpl; lia|done].
  - rewrite IH, count_cons. destruct (decide (a = b)) as [->|Hne].
    + rewrite list_lookup_alter, decide_True by done.
      destruct (freq !! Byte.to_nat b); simpl; [|done]. f_equal. lia.
    + rewrite list_lookup_alter_ne by (intros H; by apply byte_to_nat_inj in H).
      destruct (freq !! Byte.to_nat b); simpl; [|done]. f_equal.
Qed.

Lemma histogram_foldl_length (data : bytes) (freq : list Z) :
  length (foldl (fun (freq : list Z) b => alter Z.succ (Byte.to_nat b) freq)
                freq data)
  = length freq.
Proof.
  revert freq. induction data as [|a data IH]; intros freq; simpl; [done|].
  by rewrite IH, length_alter.
Qed.

(** X8: the histogram has 256 bins and the bin of each byte value holds
    the number of occurrences of that value in the data. *)
Theorem histogram_counts data :
  length (histogram data) = 256%nat
  /\ forall b, histogram data !! Byte.to_nat b = Some (count data b).
Proof.
  unfold histogram. split.
  - by rewrite histogram_foldl_length, length_replicate.
  - intros b. rewrite histogram_foldl.
    rewrite lookup_replicate_2 by (pose proof (Byte.to_nat_bounded b); lia).
    reflexivity.
Qed.

Lemma count_Permutation data data' b :
  data ≡ₚ data' -> count data b = count data' b.
Proof. intros H. unfold count. by rewrite H. Qed.

Lemma histogram_Permutation data data' :
  data ≡ₚ data' -> histogram data = histogram data'.
Proof.
  intros Hperm. apply list_eq. intros i.
  destruct (Byte.of_nat i) as [b|] eqn:E.
  - apply Byte.to_of_nat in E as <-.
    rewrite (proj2 (histogram_counts data)), (proj2 (histogram_counts data')).
    f_equal. by apply count_Permutation.
  - apply Byte.of_nat_None_iff in E.
    rewrite !lookup_ge_None_2; [done| |];
      rewrite (proj1 (histogram_counts _)); lia.
Qed.

(** X9: the entropy does not depend on the order of the bytes. *)
Theorem entropy_permutation_invariant (log2 : float -> float) data data' :
  data ≡ₚ data' -> shannon_entropy log2 data = shannon_entropy log2 data'.
Proof.
  intros Hperm. unfold shannon_entropy.
  rewrite (histogram_Permutation data data' Hperm).
  assert (Hlen : len data = len data') by (unfold len; by rewrite Hperm).
  rewrite Hlen. destruct data as [|a data], data' as [|a' data']; done.
Qed.

Lemma entropy_permutation_invariant_witness :
  sample_key ≡ₚ reverse sample_key
  /\ shannon_entropy log2_pow2 sample_key
     = shannon_entropy log2_pow2 (reverse sample_key).
Proof.
  assert (H : sample_key ≡ₚ reverse sample_key)
    by (symmetry; apply reverse_Permutation).
  split; [exact H|].
  exact (entropy_permutation_invariant log2_pow2 _ _ H).
Defined.

(** ** The key scanner: shape and place of the keys *)

Lemma window_length mm i :
  0 <= i -> length (window mm i) = Nat.min 32 (length mm - Z.to_nat i).
Proof.
  intros Hi. unfold window. rewrite slice_nonneg by (unfold AES_KEY_SIZE; lia).
  rewrite length_take, length_drop. unfold AES_KEY_SIZE.
  by replace (Z.to_nat (i + 32 - i)) with 32%nat by lia.
Qed.

Lemma getitem_head c b : getitem c 0 = Ok b -> exists rest, c = b :: rest.
Proof.
  intros H%getitem_inv; [|done]. destruct c as [|b' rest]; [done|].
  injection H as ->. by exists rest.
Qed.

(** An accepted window is whole: AES_KEY_SIZE bytes inside the file, even
    when the region reaches beyond the end of the file. *)
Lemma accepted_window_whole log2 mm region i c :
  0 <= region_start region -> accepted_at log2 mm region i c ->
  len c = AES_KEY_SIZE /\ i + AES_KEY_SIZE <= len mm.
Proof.
  intros Hstart [Hw _ (b0 & [rest Hc]%getitem_head & _) _ Hin _ _ Hrep].
  change (Z.to_nat REQUIRED_REPEATS) with 10%nat in Hrep.
  inversion Hrep as [|p q n ([Hq _] & Hwq & _) _]; subst p n.
  assert (Hlen : length (window mm q) = length (window mm i)) by congruence.
  rewrite !window_length in Hlen by lia.
  assert (Hne : (0 < length (window mm i))%nat).
  { rewrite <- Hw, Hc. simpl. lia. }
  rewrite window_length in Hne by lia.
  assert (Hlenc : length c = Nat.min 32 (length mm - Z.to_nat i)).
  { rewrite Hw. apply window_length. lia. }
  unfold len, AES_KEY_SIZE. lia.
Qed.

Section ScannerShape.
Variable log2 : float -> float.
Variable mm : bytes.
Variable regions : list Region.
Variable keys : gset bytes.
Hypothesis Hrun : find_aes_keys_in_regions log2 mm regions = Ok keys.
Hypothesis Hregions : Forall (fun r => 0 <= region_start r) regions.

(** X10: every key of the result set is a byte string of exactly
    AES_KEY_SIZE bytes whose first byte is not null, that holds at most two
    null bytes and whose entropy reaches the threshold. *)
Theorem keys_shape c :
  c ∈ keys ->
  len c = AES_KEY_SIZE
  /\ (exists b0 rest, c = b0 :: rest /\ b0 <> x00)
  /\ count c x00 <= 2
  /\ PrimFloat.leb AES_ENTROPY_THRESHOLD (shannon_entropy log2 c) = true.
Proof.
  intros Hc.
  destruct (find_aes_keys_accepted log2 mm regions keys Hrun c Hc)
    as (region & i & Hregion & Hacc).
  rewrite Forall_forall in Hregions.
  destruct (accepted_window_whole log2 mm region i c (Hregions _ Hregion) Hacc)
    as [Hlen _].
  destruct Hacc as [_ _ (b0 & [rest Hrest]%getitem_head & Hb0) Hnulls _ _ Hent _].
  split; [done|]. split; [by exists b0, rest|]. done.
Qed.

(** X11: every key of the result set is read at an offset i of a region
    with the whole window among the first MAX_INITIAL_SCAN_IN_REGION bytes
    of the region, after its first two bytes, at least AES_KEY_SIZE bytes
    before the end of the region, and inside the file. *)
Theorem keys_place c :
  c ∈ keys ->
  exists region i,
    region ∈ regions
    /\ c = slice mm i (i + AES_KEY_SIZE)
    /\ region_start region + 2 <= i
    /\ i + AES_KEY_SIZE <= region_start region + MAX_INITIAL_SCAN_IN_REGION
    /\ i + AES_KEY_SIZE + AES_KEY_SIZE <= region_end region
    /\ i + AES_KEY_SIZE <= len mm.
Proof.
  intros Hc.
  destruct (find_aes_keys_accepted log2 mm regions keys Hrun c Hc)
    as (region & i & Hregion & Hacc).
  rewrite Forall_forall in Hregions.
  destruct (accepted_window_whole log2 mm region i c (Hregions _ Hregion) Hacc)
    as [_ Hfile].
  destruct Hacc as [Hw Hscan _ _ Hin _ _ _].
  exists region, i. repeat split; try done; lia.
Qed.

End ScannerShape.

Lemma keys_shape_witness :
  find_aes_keys_in_regions log2_pow2 (dump_keys 50 10) [mkRegion 0 602 602]
  = Ok {[sample_key]}
  /\ Forall (fun r => 0 <= region_start r) [mkRegion 0 602 602]
  /\ sample_key ∈ ({[sample_key]} : gset bytes)
  /\ len sample_key = AES_KEY_SIZE
  /\ (exists b0 rest, sample_key = b0 :: rest /\ b0 <> x00)
  /\ count sample_key x00 <= 2
  /\ PrimFloat.leb AES_ENTROPY_THRESHOLD (shannon_entropy log2_pow2 sample_key)
     = true.
Proof.
  assert (H2 : Forall (fun r => 0 <= region_start r) [mkRegion 0 602 602])
    by (apply Forall_singleton; simpl; lia).
  assert (H3 : sample_key ∈ ({[sample_key]} : gset bytes))
    by (apply elem_of_singleton; reflexivity).
  split; [exact scan_ten_copies|]. split; [exact H2|]. split; [exact H3|].
  exact (keys_shape log2_pow2 _ _ _ scan_ten_copies H2 sample_key H3).
Defined.

Lemma keys_place_witness :
  find_aes_keys_in_regions log2_pow2 (dump_keys 50 10) [mkRegion 0 602 602]
  = Ok {[sample_key]}
  /\ Forall (fun r => 0 <= region_start r) [mkRegion 0 602 602]
  /\ sample_key ∈ ({[sample_key]} : gset bytes)
  /\ exists region i,
       region ∈ [mkRegion 0 602 602]
       /\ sample_key = slice (dump_keys 50 10) i (i + AES_KEY_SIZE)
       /\ region_start region + 2 <= i
       /\ i + AES_KEY_SIZE <= region_start region + MAX_INITIAL_SCAN_IN_REGION
       /\ i + AES_KEY_SIZE + AES_KEY_SIZE <= region_end region
       /\ i + AES_KEY_SIZE <= len (dump_keys 50 10).
Proof.
  assert (H2 : Forall (fun r => 0 <= region_start r) [mkRegion 0 602 602])
    by (apply Forall_singleton; simpl; lia).
  assert (H3 : sample_key ∈ ({[sample_key]} : gset bytes))
    by (apply elem_of_singleton; reflexivity).
  split; [exact scan_ten_copies|]. split; [exact H2|]. split; [exact H3|].
  exact (keys_place log2_pow2 _ _ _ scan_ten_copies H2 sample_key H3).
Defined.

(** ** The key scanner: completeness *)

(** A full chain of sightings makes the verification loop count up to
    REQUIRED_REPEATS. *)
Lemma verify_loop_complete fuel mm region_end candidate repeat_count scan_pos :
  repeat_count <= REQUIRED_REPEATS ->
  REQUIRED_REPEATS - repeat_count <= Z.of_nat fuel ->
  sightings mm region_end candidate scan_pos
            (Z.to_nat (REQUIRED_REPEATS - repeat_count + 1)) ->
  verify_loop fuel mm region_end candidate repeat_count scan_pos
  = Ok REQUIRED_REPEATS.
Proof.
  revert repeat_count scan_pos.
  induction fuel as [|fuel IH]; intros rc p Hrc Hfuel Hs; cbn [verify_loop];
    destruct (Z.ltb_spec rc REQUIRED_REPEATS) as [Hlt|Hge]; try lia;
    try (f_equal; lia).
  inversion Hs as [p' Hn|p' q n Hnext Hrest Hp Hn]; [lia|]. subst p'.
  apply find_next_Some in Hnext. rewrite Hnext. apply IH; [lia|lia|].
  by replace (Z.to_nat (REQUIRED_REPEATS - (rc + 1) + 1)) with n by lia.
Qed.

(** Reading the first byte of a window that is not empty reads the file
    at the offset of the window. *)
Lemma window_first_byte mm i b :
  0 <= i -> getitem (window mm i) 0 = Ok b -> getitem mm i = Ok b.
Proof.
  intros Hi H%getitem_inv; [|done]. apply getitem_lookup; [done|].
  replace (Z.to_nat i) with (Z.to_nat i + 0)%nat by lia.
  apply slice_lookup with (b := i + AES_KEY_SIZE); [done|unfold AES_KEY_SIZE; lia|].
  exact H.
Qed.

(** What skipping the leading nulls returns: only null bytes were passed. *)
Lemma skip_nulls_spec fuel mm initial_end i i' :
  skip_nulls fuel mm initial_end i = Ok i' ->
  i <= i' /\ forall k, i <= k < i' -> getitem mm k = Ok x00.
Proof.
  revert i. induction fuel as [|fuel IH]; intros i; cbn [skip_nulls];
    destruct (Z.ltb_spec i initial_end) as [Hlt|Hge];
    try (intros [= <-]; split; [lia|intros; lia]);
    destruct (getitem mm i) as [b|e] eqn:E; try done; cbn [mbind result_bind];
    destruct (decide (b = x00)) as [->|Hne]; try done;
    try (intros [= <-]; split; [lia|intros; lia]).
  intros [Hle Hnull]%IH. split; [lia|]. intros k Hk.
  destruct (Z.eq_dec k i) as [->|]; [done|]. apply Hnull. lia.
Qed.

Section ScannerComplete.
Variable log2 : float -> float.
Variable mm : bytes.

(** A window that meets the acceptance conditions is added. *)
Lemma check_candidate_accepts region i c keys_found :
  accepted_at log2 mm region i c ->
  check_candidate log2 mm (region_start region) (region_end region) i keys_found
  = Ok ({[c]} ∪ keys_found).
Proof.
  intros [-> _ (b0 & Hb0 & Hne) Hnulls Hin Hpad Hent Hrep].
  unfold check_candidate. fold (window mm i). rewrite Hb0. cbn [mbind result_bind].
  rewrite decide_False by done.
  destruct (Z.ltb_spec 2 (count (window mm i) x00)); [lia|].
  destruct (Z.ltb_spec (i - 2) (region_start region)); [lia|].
  rewrite bool_decide_eq_true_2 by done. cbn [orb negb]. rewrite Hent.
  rewrite verify_loop_complete; [| done | done | done].
  cbn [mbind result_bind]. by rewrite Z.leb_refl.
Qed.

Lemma scan_loop_mono fuel region initial_end i keys_found keys_found' :
  initial_end = Z.min (region_start region + MAX_INITIAL_SCAN_IN_REGION)
                      (region_end region - AES_KEY_SIZE) ->
  scan_loop log2 fuel mm (region_start region) (region_end region) initial_end i
            keys_found = Ok keys_found' ->
  keys_found ⊆ keys_found'.
Proof.
  intros ->. revert i keys_found.
  induction fuel as [|fuel IH]; intros i keys_found; cbn [scan_loop];
    match goal with |- context [?a <=? ?b] => destruct (Z.leb_spec a b) as [Hi|Hi] end;
    try done; try (by intros [= <-]).
  intros (keys1 & Hcheck & Hrun)%bind_Ok_inv.
  apply IH in Hrun.
  destruct (check_candidate_cases _ _ _ _ _ _ Hi Hcheck) as [->|[-> _]];
    set_solver.
Qed.

Lemma scan_loop_complete fuel region initial_end i0 keys_found keys_found' i c :
  initial_end = Z.min (region_start region + MAX_INITIAL_SCAN_IN_REGION)
                      (region_end region - AES_KEY_SIZE) ->
  scan_loop log2 fuel mm (region_start region) (region_end region) initial_end i0
            keys_found = Ok keys_found' ->
  i0 <= i -> accepted_at log2 mm region i c -> c ∈ keys_found'.
Proof.
  intros ->. revert i0 keys_found.
  induction fuel as [|fuel IH]; intros i0 keys_found; cbn [scan_loop];
    match goal with |- context [?a <=? ?b] => destruct (Z.leb_spec a b) as [Hi|Hi] end;
    try done.
  - intros _ Hle Hacc. destruct Hacc as [_ Hscan _ _ _ _ _ _]. lia.
  - intros (keys1 & Hcheck & Hrun)%bind_Ok_inv Hle Hacc.
    destruct (Z.eq_dec i0 i) as [->|Hne].
    + rewrite (check_candidate_accepts _ _ _ _ Hacc) in Hcheck.
      injection Hcheck as <-.
      apply scan_loop_mono in Hrun; [|done]. set_solver.
    + apply (IH _ _ Hrun); [lia|done].
  - intros _ Hle Hacc. destruct Hacc as [_ Hscan _ _ _ _ _ _]. lia.
Qed.

Lemma scan_region_mono region keys_found keys_found' :
  scan_region log2 mm region keys_found = Ok keys_found' ->
  keys_found ⊆ keys_found'.
Proof.
  unfold scan_region. intros (i0 & _ & Hscan)%bind_Ok_inv.
  by eapply scan_loop_mono.
Qed.

Lemma scan_region_complete region keys_found keys_found' i c :
  0 <= region_start region ->
  scan_region log2 mm region keys_found = Ok keys_found' ->
  accepted_at log2 mm region i c -> c ∈ keys_found'.
Proof.
  intros Hstart. unfold scan_region.
  intros (i0 & Hskip & Hscan)%bind_Ok_inv Hacc.
  eapply scan_loop_complete; [done|exact Hscan| |exact Hacc].
  apply skip_nulls_spec in Hskip as [_ Hnull].
  destruct (Z.le_gt_cases i0 i) as [|Hgt]; [done|].
  destruct Hacc as [-> _ (b0 & Hb0 & Hne) _ Hin _ _ _].
  apply window_first_byte in Hb0; [|lia].
  rewrite Hnull in Hb0 by lia. congruence.
Qed.

Lemma regions_loop_mono regions keys_found keys_found' :
  regions_loop log2 mm regions keys_found = Ok keys_found' ->
  keys_found ⊆ keys_found'.
Proof.
  revert keys_found. induction regions as [|region regions IH];
    intros keys_found; cbn [regions_loop]; [by intros [= <-]|].
  intros (keys1 & Hregion%scan_region_mono & Hrun%IH)%bind_Ok_inv. set_solver.
Qed.

Lemma regions_loop_complete regions keys_found keys_found' region i c :
  Forall (fun r => 0 <= region_start r) regions ->
  regions_loop log2 mm regions keys_found = Ok keys_found' ->
  region ∈ regions -> accepted_at log2 mm region i c -> c ∈ keys_found'.
Proof.
  revert keys_found. induction regions as [|r regions IH];
    intros keys_found Hall; cbn [regions_loop]; [by intros _ ?%elem_of_nil|].
  apply Forall_cons in Hall as [Hr Hall].
  intros (keys1 & Hregion & Hrun)%bind_Ok_inv [->|Hin]%elem_of_cons Hacc.
  - apply regions_loop_mono in Hrun.
    pose proof (scan_region_complete _ _ _ _ _ Hr Hregion Hacc). set_solver.
  - by eapply IH.
Qed.

(** X12: the result set holds exactly the windows that meet the acceptance
    conditions at some offset of some region of the list: first byte not
    null, at most two null bytes, two null bytes before it inside the
    region, entropy at the threshold or above, REQUIRED_REPEATS sightings,
    and an offset within the initial scan of the region. *)
Theorem scanner_exact regions keys c :
  Forall (fun r => 0 <= region_start r) regions ->
  find_aes_keys_in_regions log2 mm regions = Ok keys ->
  c ∈ keys
  <-> exists region i, region ∈ regions /\ accepted_at log2 mm region i c.
Proof.
  intros Hall Hrun. split.
  - by apply find_aes_keys_accepted.
  - intros (region & i & Hregion & Hacc). revert Hrun.
    unfold find_aes_keys_in_regions. destruct (len mm =? 0); [done|].
    intros Hrun. by eapply regions_loop_complete.
Qed.

End ScannerComplete.

Lemma scanner_exact_witness :
  Forall (fun r => 0 <= region_start r) [mkRegion 0 602 602]
  /\ find_aes_keys_in_regions log2_pow2 (dump_keys 50 10) [mkRegion 0 602 602]
     = Ok {[sample_key]}
  /\ (sample_key ∈ ({[sample_key]} : gset bytes)
      <-> exists region i,
            region ∈ [mkRegion 0 602 602]
            /\ accepted_at log2_pow2 (dump_keys 50 10) region i sample_key).
Proof.
  assert (H1 : Forall (fun r => 0 <= region_start r) [mkRegion 0 602 602])
    by (apply Forall_singleton; simpl; lia).
  split; [exact H1|]. split; [exact scan_ten_copies|].
  exact (scanner_exact log2_pow2 _ _ _ sample_key H1 scan_ten_copies).
Defined.

(** ** The key scanner: regions compose *)

Lemma add_keys_add_keys ks1 ks2 r :
  add_keys ks1 (add_keys ks2 r) = add_keys (ks2 ∪ ks1) r.
Proof. destruct r as [ks|e]; [|done]. simpl. by rewrite (assoc_L (∪)). Qed.

Lemma add_keys_none keys_found : Ok keys_found = add_keys keys_found (Ok ∅).
Proof. simpl. by rewrite (left_id_L ∅ (∪)). Qed.

Section ScannerCompose.
Variable log2 : float -> float.
Variable mm : bytes.

(** What a pass adds does not depend on what was found before. *)
Lemma check_candidate_union region_start region_end i keys_found :
  check_candidate log2 mm region_start region_end i keys_found
  = add_keys keys_found (check_candidate log2 mm region_start region_end i ∅).
Proof.
  unfold check_candidate.
  destruct (getitem (slice mm i (i + AES_KEY_SIZE)) 0) as [b0|e]; [|done].
  cbn [mbind result_bind].
  pose proof (add_keys_none keys_found) as Hsame.
  destruct (decide (b0 = x00)) as [|Hne]; [done|].
  destruct (2 <? _); [done|]. destruct (_ || _); [done|].
  destruct (PrimFloat.leb _ _); [|done].
  destruct (verify_loop _ _ _ _ _ _) as [n|e]; [|done].
  cbn [mbind result_bind]. destruct (REQUIRED_REPEATS <=? n); [|done].
  simpl. by rewrite (right_id_L ∅ (∪)).
Qed.

Lemma scan_loop_union fuel region_start region_end initial_end i keys_found :
  scan_loop log2 fuel mm region_start region_end initial_end i keys_found
  = add_keys keys_found
      (scan_loop log2 fuel mm region_start region_end initial_end i ∅).
Proof.
  revert i keys_found. induction fuel as [|fuel IH]; intros i keys_found;
    cbn [scan_loop]; destruct (i <=? initial_end - AES_KEY_SIZE);
    try done; try apply add_keys_none.
  rewrite (check_candidate_union _ _ _ keys_found).
  destruct (check_candidate log2 mm region_start region_end i ∅) as [d|e]; [|done].
  cbn [add_keys mbind result_bind].
  rewrite (IH _ (d ∪ keys_found)), (IH _ d). by rewrite add_keys_add_keys.
Qed.

Lemma scan_region_union region keys_found :
  scan_region log2 mm region keys_found
  = add_keys keys_found (scan_region log2 mm region ∅).
Proof.
  unfold scan_region. destruct (skip_nulls _ _ _ _) as [i|e]; [|done].
  cbn [mbind result_bind]. apply scan_loop_union.
Qed.

Lemma regions_loop_union regions keys_found :
  regions_loop log2 mm regions keys_found
  = add_keys keys_found (regions_loop log2 mm regions ∅).
Proof.
  revert keys_found. induction regions as [|region regions IH];
    intros keys_found; cbn [regions_loop]; [apply add_keys_none|].
  rewrite (scan_region_union region keys_found).
  destruct (scan_region log2 mm region ∅) as [d|e]; [|done].
  cbn [add_keys mbind result_bind].
  rewrite (IH (d ∪ keys_found)), (IH d). by rewrite add_keys_add_keys.
Qed.

Lemma regions_loop_app regions regions' keys_found :
  regions_loop log2 mm (regions ++ regions') keys_found
  = keys ← regions_loop log2 mm regions keys_found;
    regions_loop log2 mm regions' keys.
Proof.
  revert keys_found. induction regions as [|region regions IH];
    intros keys_found; cbn [regions_loop app]; [done|].
  destruct (scan_region log2 mm region keys_found) as [d|e]; [|done].
  cbn [mbind result_bind]. apply IH.
Qed.

(** X13: scanning a concatenation of region lists gives the union of the
    result sets of the two lists. *)
Theorem scan_of_concatenation regions regions' keys keys' :
  find_aes_keys_in_regions log2 mm regions = Ok keys ->
  find_aes_keys_in_regions log2 mm regions' = Ok keys' ->
  find_aes_keys_in_regions log2 mm (regions ++ regions') = Ok (keys ∪ keys').
Proof.
  unfold find_aes_keys_in_regions. destruct (len mm =? 0); [done|].
  intros H1 H2. rewrite regions_loop_app, H1. cbn [mbind result_bind].
  rewrite regions_loop_union, H2. simpl. by rewrite (comm_L (∪)).
Qed.

Lemma skip_nulls_raises fuel initial_end i e :
  initial_end - i <= Z.of_nat fuel ->
  skip_nulls fuel mm initial_end i = Raise e -> e = IndexError.
Proof.
  revert i. induction fuel as [|fuel IH]; intros i Hfuel; cbn [skip_nulls];
    destruct (Z.ltb_spec i initial_end); try done; try lia.
  destruct (getitem mm i) as [b|e'] eqn:E.
  - cbn [mbind result_bind]. destruct (decide (b = x00)); [|done].
    apply IH. lia.
  - cbn [mbind result_bind]. intros [= <-]. by apply getitem_raises in E.
Qed.

Lemma check_candidate_raises region_start region_end i keys_found e :
  check_candidate log2 mm region_start region_end i keys_found = Raise e ->
  e = IndexError.
Proof.
  unfold check_candidate.
  destruct (getitem (slice mm i (i + AES_KEY_SIZE)) 0) as [b0|e'] eqn:E;
    [|cbn [mbind result_bind]; intros [= <-]; by apply getitem_raises in E].
  cbn [mbind result_bind]. destruct (decide (b0 = x00)) as [|Hne]; [done|].
  destruct (2 <? _); [done|]. destruct (_ || _); [done|].
  destruct (PrimFloat.leb _ _); [|done].
  destruct (verify_loop_total (Z.to_nat REQUIRED_REPEATS) mm region_end
              (slice mm i (i + AES_KEY_SIZE)) 1 i) as [n ->]; [done|].
  cbn [mbind result_bind]. by destruct (REQUIRED_REPEATS <=? n).
Qed.

Lemma scan_loop_raises fuel region_start region_end initial_end i keys_found e :
  initial_end - AES_KEY_SIZE - i + 1 <= Z.of_nat fuel ->
  scan_loop log2 fuel mm region_start region_end initial_end i keys_found
  = Raise e ->
  e = IndexError.
Proof.
  revert i keys_found.
  induction fuel as [|fuel IH]; intros i keys_found Hfuel; cbn [scan_loop];
    destruct (Z.leb_spec i (initial_end - AES_KEY_SIZE)); try done; try lia.
  destruct (check_candidate log2 mm region_start region_end i keys_found)
    as [keys1|e'] eqn:E.
  - cbn [mbind result_bind]. apply IH. lia.
  - cbn [mbind result_bind]. intros [= <-]. by apply check_candidate_raises in E.
Qed.

(** The only exception the loops of the scanner raise is [IndexError]. *)
Lemma scan_region_raises region keys_found e :
  scan_region log2 mm region keys_found = Raise e -> e = IndexError.
Proof.
  unfold scan_region. set (initial_end := Z.min _ _).
  destruct (skip_nulls _ _ _ _) as [i|e'] eqn:Eskip.
  - cbn [mbind result_bind]. apply scan_loop_raises. lia.
  - cbn [mbind result_bind]. intros [= <-].
    apply skip_nulls_raises in Eskip; [done|lia].
Qed.

Lemma regions_loop_Permutation regions regions' :
  regions ≡ₚ regions' ->
  forall keys_found,
    regions_loop log2 mm regions keys_found
    = regions_loop log2 mm regions' keys_found.
Proof.
  induction 1 as [|x l l' _ IH|x y l|l l' l'' _ IH1 _ IH2]; intros keys_found.
  - done.
  - cbn [regions_loop]. destruct (scan_region log2 mm x keys_found); [|done].
    cbn [mbind result_bind]. apply IH.
  - cbn [regions_loop].
    rewrite (scan_region_union y keys_found), (scan_region_union x keys_found).
    destruct (scan_region log2 mm y ∅) as [dy|ey] eqn:Ey,
             (scan_region log2 mm x ∅) as [dx|ex] eqn:Ex;
      cbn [add_keys mbind result_bind].
    + rewrite (scan_region_union x), (scan_region_union y), Ex, Ey.
      cbn [add_keys mbind result_bind]. f_equal.
      by rewrite !(assoc_L (∪)), (comm_L (∪) dx dy).
    + by rewrite (scan_region_union x), Ex.
    + by rewrite (scan_region_union y), Ey.
    + apply scan_region_raises in Ex, Ey. by subst.
  - by rewrite IH1, IH2.
Qed.

(** X14: the result of the scanner does not depend on the order of the
    regions in the list. *)
Theorem scan_order_independent regions regions' :
  regions ≡ₚ regions' ->
  find_aes_keys_in_regions log2 mm regions
  = find_aes_keys_in_regions log2 mm regions'.
Proof.
  intros Hperm. unfold find_aes_keys_in_regions.
  destruct (len mm =? 0); [done|]. by apply regions_loop_Permutation.
Qed.

End ScannerCompose.

Lemma scan_of_concatenation_witness :
  find_aes_keys_in_regions log2_pow2 dump_two_keys [mkRegion 0 502 502]
  = Ok {[sample_key]}
  /\ find_aes_keys_in_regions log2_pow2 dump_two_keys [mkRegion 502 1104 602]
     = Ok {[second_key]}
  /\ find_aes_keys_in_regions log2_pow2 dump_two_keys
       ([mkRegion 0 502 502] ++ [mkRegion 502 1104 602])
     = Ok ({[sample_key]} ∪ {[second_key]}).
Proof.
  assert (H1 : find_aes_keys_in_regions log2_pow2 dump_two_keys
                 [mkRegion 0 502 502] = Ok {[sample_key]}) by by_evaluation.
  assert (H2 : find_aes_keys_in_regions log2_pow2 dump_two_keys
                 [mkRegion 502 1104 602] = Ok {[second_key]}) by by_evaluation.
  split; [exact H1|]. split; [exact H2|].
  exact (scan_of_concatenation log2_pow2 _ _ _ _ _ H1 H2).
Defined.

Lemma scan_order_independent_witness :
  [mkRegion 0 602 602; mkRegion 2 602 600] ≡ₚ [mkRegion 2 602 600; mkRegion 0 602 602]
  /\ find_aes_keys_in_regions log2_pow2 (dump_keys 50 10)
       [mkRegion 0 602 602; mkRegion 2 602 600]
     = find_aes_keys_in_regions log2_pow2 (dump_keys 50 10)
         [mkRegion 2 602 600; mkRegion 0 602 602].
Proof.
  assert (H : [mkRegion 0 602 602; mkRegion 2 602 600]
              ≡ₚ [mkRegion 2 602 600; mkRegion 0 602 602]) by apply perm_swap.
  split; [exact H|].
  exact (scan_order_independent log2_pow2 (dump_keys 50 10) _ _ H).
Defined.

(** ** The key scanner: no exception on regions inside the file *)

Lemma getitem_in_range mm i :
  0 <= i < len mm -> exists b, getitem mm i = Ok b.
Proof.
  intros Hi. unfold getitem. destruct (Z.ltb_spec i 0); [lia|].
  destruct (Z.ltb_spec i 0); [lia|].
  destruct (mm !! Z.to_nat i) as [b|] eqn:E; [by exists b|].
  apply lookup_ge_None in E. unfold len in Hi. lia.
Qed.

Lemma skip_nulls_returns fuel mm initial_end i :
  0 <= i -> initial_end <= len mm -> initial_end - i <= Z.of_nat fuel ->
  exists i', skip_nulls fuel mm initial_end i = Ok i'.
Proof.
  revert i. induction fuel as [|fuel IH]; intros i Hi Hend Hfuel;
    cbn [skip_nulls]; destruct (Z.ltb_spec i initial_end); try lia;
    try by eexists.
  destruct (getitem_in_range mm i ltac:(lia)) as [b ->].
  cbn [mbind result_bind]. destruct (decide (b = x00)); [|by eexists].
  apply IH; lia.
Qed.

Section ScannerReturns.
Variable log2 : float -> float.
Variable mm : bytes.

Lemma check_candidate_returns region_start region_end i keys_found :
  0 <= i < len mm ->
  exists keys, check_candidate log2 mm region_start region_end i keys_found
               = Ok keys.
Proof.
  intros Hi. unfold check_candidate. fold (window mm i).
  destruct (getitem_in_range (window mm i) 0) as [b0 ->].
  { unfold len in *. rewrite window_length by lia. lia. }
  cbn [mbind result_bind]. destruct (decide (b0 = x00)) as [|Hne]; [by eexists|].
  destruct (2 <? _); [by eexists|]. destruct (_ || _); [by eexists|].
  destruct (PrimFloat.leb _ _); [|by eexists].
  destruct (verify_loop_total (Z.to_nat REQUIRED_REPEATS) mm region_end
              (window mm i) 1 i) as [n ->]; [done|].
  cbn [mbind result_bind]. destruct (REQUIRED_REPEATS <=? n); by eexists.
Qed.

Lemma scan_loop_returns fuel region_start region_end initial_end i keys_found :
  0 <= i -> initial_end - AES_KEY_SIZE < len mm ->
  initial_end - AES_KEY_SIZE - i + 1 <= Z.of_nat fuel ->
  exists keys,
    scan_loop log2 fuel mm region_start region_end initial_end i keys_found
    = Ok keys.
Proof.
  revert i keys_found.
  induction fuel as [|fuel IH]; intros i keys_found Hi Hend Hfuel;
    cbn [scan_loop]; destruct (Z.leb_spec i (initial_end - AES_KEY_SIZE));
    try lia; try by eexists.
  destruct (check_candidate_returns region_start region_end i keys_found)
    as [keys1 ->]; [lia|].
  cbn [mbind result_bind]. apply IH; lia.
Qed.

Lemma scan_region_returns region keys_found :
  region_in_file mm region ->
  exists keys, scan_region log2 mm region keys_found = Ok keys.
Proof.
  intros [Hstart Hend]. unfold scan_region. set (initial_end := Z.min _ _).
  assert (Hie : initial_end <= len mm) by (unfold AES_KEY_SIZE in *; lia).
  destruct (skip_nulls_returns (Z.to_nat (initial_end - region_start region))
              mm initial_end (region_start region) Hstart Hie ltac:(lia))
    as [i Hskip].
  rewrite Hskip. cbn [mbind result_bind].
  apply skip_nulls_spec in Hskip as [Hle _].
  apply scan_loop_returns; [lia|unfold AES_KEY_SIZE; lia|lia].
Qed.

(** The scanner returns a result set for every list of regions inside a
    file that is not empty. *)
Lemma find_aes_keys_returns regions :
  mm <> [] -> Forall (region_in_file mm) regions ->
  exists keys, find_aes_keys_in_regions log2 mm regions = Ok keys.
Proof.
  intros Hmm Hall. unfold find_aes_keys_in_regions.
  destruct (Z.eqb_spec (len mm) 0) as [E|_].
  { destruct mm; [done|]. unfold len in E. simpl in E. lia. }
  generalize (∅ : gset bytes).
  induction Hall as [|region regions Hregion _ IH]; intros keys_found;
    cbn [regions_loop]; [by eexists|].
  destruct (scan_region_returns region keys_found Hregion) as [keys1 ->].
  cbn [mbind result_bind]. apply IH.
Qed.

(** X15: on a file that is not empty the scanner raises no exception for
    regions that lie inside the file: it returns a result set. *)
Theorem scanner_returns_inside_file regions :
  mm <> [] -> Forall (region_in_file mm) regions ->
  exists keys, find_aes_keys_in_regions log2 mm regions = Ok keys.
Proof. apply find_aes_keys_returns. Qed.

Lemma loose_regions_scan scan_mode regions :
  find_regions_loose mm scan_mode = Ok regions ->
  exists keys, find_aes_keys_in_regions log2 mm regions = Ok keys.
Proof.
  intros Hloose. apply find_aes_keys_returns.
  - intros ->. by destruct scan_mode.
  - apply loose_regions_in_file in Hloose.
    eapply Forall_impl; [exact Hloose|]. intros r (H1 & _ & H2 & _).
    assert (0 < MIN_NULL_END_REGION_SIZE) by done. split; lia.
Qed.

(** X16: the regions heuristic discovery returns for a file, in either
    mode, can always be scanned: the scanner returns a result set for
    them. *)
Theorem heuristic_regions_scan scan_mode regions :
  find_regions_loose mm scan_mode = Ok regions ->
  exists keys, find_aes_keys_in_regions log2 mm regions = Ok keys.
Proof. apply loose_regions_scan. Qed.

End ScannerReturns.

Lemma scanner_returns_inside_file_witness :
  dump_keys 50 10 <> []
  /\ Forall (region_in_file (dump_keys 50 10)) [mkRegion 0 602 602]
  /\ exists keys,
       find_aes_keys_in_regions log2_pow2 (dump_keys 50 10) [mkRegion 0 602 602]
       = Ok keys.
Proof.
  assert (H1 : dump_keys 50 10 <> []) by discriminate.
  assert (H2 : Forall (region_in_file (dump_keys 50 10)) [mkRegion 0 602 602]).
  { apply Forall_singleton. split; [simpl; lia|]. vm_compute. discriminate. }
  split; [exact H1|]. split; [exact H2|].
  exact (scanner_returns_inside_file log2_pow2 _ _ H1 H2).
Defined.

Lemma heuristic_regions_scan_witness :
  find_regions_loose dump_two_regions Backward
  = Ok [mkRegion 0 35001 35001; mkRegion 0 80002 80002]
  /\ exists keys,
       find_aes_keys_in_regions log2_pow2 dump_two_regions
         [mkRegion 0 35001 35001; mkRegion 0 80002 80002] = Ok keys.
Proof.
  split; [exact backward_on_two_regions|].
  exact (heuristic_regions_scan log2_pow2 _ _ _ backward_on_two_regions).
Defined.

(** ** The orchestrator: outcomes *)

Lemma minidump_regions_in_file mm memory_segments_64 :
  dump_in_file mm (ParsedDump memory_segments_64) ->
  Forall (region_in_file mm) (find_regions_from_minidump memory_segments_64).
Proof.
  destruct memory_segments_64 as [segs|]; [|constructor]. simpl. intros Hall.
  rewrite minidump_loop_filter. simpl. apply Forall_forall.
  intros r (seg & -> & Hseg)%list_elem_of_fmap.
  apply list_elem_of_filter in Hseg as [_ Hseg].
  rewrite Forall_forall in Hall. by apply Hall.
Qed.

Lemma minidump_regions_offsets memory_segments_64 :
  dump_offsets_valid (ParsedDump memory_segments_64) ->
  Forall (fun r => 0 <= region_start r)
         (find_regions_from_minidump memory_segments_64).
Proof.
  destruct memory_segments_64 as [segs|]; [|constructor]. simpl. intros Hall.
  rewrite minidump_loop_filter. simpl. apply Forall_forall.
  intros r (seg & -> & Hseg)%list_elem_of_fmap.
  apply list_elem_of_filter in Hseg as [_ Hseg].
  rewrite Forall_forall in Hall. by apply Hall.
Qed.

Section MainOutcomes.
Variable log2 : float -> float.
Variable parsed : Parsed.
Variable mm : bytes.

Lemma steps_loop_returns steps keys log :
  mm <> [] -> dump_in_file mm parsed ->
  exists r, steps_loop log2 parsed mm steps keys log = Ok r.
Proof.
  intros Hmm Hdump. revert keys log.
  induction steps as [|mode steps IH]; intros keys log; cbn [steps_loop];
    [by eexists|].
  assert (Hscan : exists regions,
             run_scan_func parsed mm mode = Ok regions
             /\ Forall (region_in_file mm) regions).
  { destruct mode as [scan_mode|]; simpl.
    - destruct (find_regions_loose_terminates mm scan_mode Hmm) as [regions Hr].
      exists regions. split; [done|].
      apply loose_regions_in_file in Hr.
      eapply Forall_impl; [exact Hr|]. intros r (H1 & _ & H2 & _).
      assert (0 < MIN_NULL_END_REGION_SIZE) by done. split; lia.
    - destruct parsed as [|memory_segments_64]; [done|]. simpl.
      eexists. split; [done|]. by apply minidump_regions_in_file. }
  destruct Hscan as (regions & -> & Hin). cbn [mbind result_bind].
  destruct regions as [|r regions]; [apply IH|].
  destruct (find_aes_keys_returns log2 mm (r :: regions) Hmm Hin) as [ks ->].
  cbn [mbind result_bind]. destruct (decide (ks = ∅)); [apply IH|by eexists].
Qed.

(** X17: when the file is not empty, the parser returns a dump and the
    segments it declares lie inside the file, a run raises no exception:
    it ends with a report. *)
Theorem main_reports :
  mm <> [] -> dump_in_file mm parsed ->
  exists log report, main log2 parsed mm = Ok (log, report).
Proof.
  intros Hmm Hdump. unfold main.
  destruct (steps_loop_returns scan_steps ∅ [] Hmm Hdump) as [[keys log] ->].
  cbn [mbind result_bind]. destruct (decide (keys = ∅)); by eexists _, _.
Qed.

Lemma steps_loop_keys steps keys0 log0 keys log :
  steps_loop log2 parsed mm steps keys0 log0 = Ok (keys, log) ->
  keys = keys0 \/ keys = ∅
  \/ exists mode regions,
       mode ∈ steps
       /\ run_scan_func parsed mm mode = Ok regions
       /\ find_aes_keys_in_regions log2 mm regions = Ok keys.
Proof.
  revert keys0 log0. induction steps as [|mode steps IH]; intros keys0 log0.
  - cbn [steps_loop]. intros [= <- <-]. by left.
  - intros [(_ & Hloop)|[(rs & _ & _ & _ & Hloop)|(rs & _ & Hscan & Hkeys & _)]]
      %steps_loop_cons.
    + destruct (IH _ _ Hloop) as [?|[?|(m & rs & Hm & H1 & H2)]]; [by left|tauto|].
      right. right. exists m, rs. split; [by apply list_elem_of_further|done].
    + destruct (IH _ _ Hloop) as [?|[?|(m & rs' & Hm & H1 & H2)]]; [tauto|tauto|].
      right. right. exists m, rs'. split; [by apply list_elem_of_further|done].
    + right. right. exists mode, rs. split; [apply list_elem_of_here|done].
Qed.

(** The keys a run reports are the result of the scanner on the regions
    one of the three strategies returned. *)
Lemma main_keys_origin log keys :
  main log2 parsed mm = Ok (log, KeysFound keys) ->
  exists mode regions,
    run_scan_func parsed mm mode = Ok regions
    /\ find_aes_keys_in_regions log2 mm regions = Ok keys.
Proof.
  unfold main. intros ([ks lg] & Hloop & Hreport)%bind_Ok_inv.
  destruct (decide (ks = ∅)) as [|Hne]; [done|]. injection Hreport as <- <-.
  destruct (steps_loop_keys _ _ _ _ _ Hloop) as [?|[?|(m & rs & _ & H1 & H2)]];
    [done|done|]. by exists m, rs.
Qed.

(** X18: every key a run reports is a window of exactly AES_KEY_SIZE bytes
    of the file, with a first byte that is not null and, just before the
    window, two null bytes of the file. *)
Theorem main_reported_keys log keys c :
  dump_offsets_valid parsed ->
  main log2 parsed mm = Ok (log, KeysFound keys) ->
  c ∈ keys ->
  len c = AES_KEY_SIZE
  /\ exists i,
       2 <= i /\ i + AES_KEY_SIZE <= len mm
       /\ c = slice mm i (i + AES_KEY_SIZE)
       /\ getitem mm (i - 2) = Ok x00
       /\ getitem mm (i - 1) = Ok x00
       /\ (exists b, getitem mm i = Ok b /\ b <> x00).
Proof.
  intros Hdump (mode & regions & Hscan & Hkeys)%main_keys_origin Hc.
  assert (Hstart : Forall (fun r => 0 <= region_start r) regions).
  { destruct mode as [scan_mode|]; simpl in Hscan.
    - apply loose_regions_in_file in Hscan.
      eapply Forall_impl; [exact Hscan|]. by intros r (H1 & _).
    - destruct parsed as [|memory_segments_64]; [done|]. simpl in Hscan.
      injection Hscan as <-. by apply minidump_regions_offsets. }
  destruct (find_aes_keys_accepted log2 mm regions keys Hkeys c Hc)
    as (region & i & Hregion & Hacc).
  rewrite Forall_forall in Hstart. specialize (Hstart _ Hregion).
  destruct (accepted_window_whole log2 mm region i c Hstart Hacc) as [Hlen Hfile].
  destruct Hacc as [Hw _ (b0 & Hb0 & Hne) _ Hin Hpad _ _].
  apply slice_two_getitem in Hpad as [H2 H1].
  split; [done|]. exists i. repeat split; try done; try lia.
  exists b0. split; [|done]. apply window_first_byte; [lia|]. by rewrite <- Hw.
Qed.

(** X19: on an empty file a run never ends with a report: it ends with an
    exception, the parser's when the parser raises, and otherwise
    [ValueError], the file that cannot be mapped. *)
Theorem main_on_empty_file :
  main log2 parsed []
  = Raise (match parsed with
           | ParseRaises => ParserError
           | ParsedDump _ => ValueError
           end).
Proof.
  unfold main, scan_steps. destruct parsed as [|memory_segments_64]; [done|].
  cbn [steps_loop run_scan_func find_regions_from_minidump_file mbind result_bind].
  by destruct (find_regions_from_minidump memory_segments_64).
Qed.

End MainOutcomes.

Lemma main_reports_witness :
  dump_keys 50 10 <> []
  /\ dump_in_file (dump_keys 50 10) (ParsedDump (Some [mkSegment 0 100]))
  /\ exists log report,
       main log2_pow2 (ParsedDump (Some [mkSegment 0 100])) (dump_keys 50 10)
       = Ok (log, report).
Proof.
  assert (H1 : dump_keys 50 10 <> []) by discriminate.
  assert (H2 : dump_in_file (dump_keys 50 10) (ParsedDump (Some [mkSegment 0 100]))).
  { apply Forall_singleton. simpl. split; [lia|]. vm_compute. discriminate. }
  split; [exact H1|]. split; [exact H2|].
  exact (main_reports log2_pow2 _ _ H1 H2).
Defined.

(** A run on a truncated dump that reports the key. *)
Lemma main_on_truncated_dump :
  main log2_pow2 (ParsedDump (Some [mkSegment 0 5000000; mkSegment 0 30000]))
       (dump_keys 50 10)
  = Ok ([Discover None [mkRegion 0 30000 30000];
         Scan [mkRegion 0 30000 30000] {[sample_key]}],
        KeysFound {[sample_key]}).
Proof. by_evaluation. Qed.

Lemma main_reported_keys_witness :
  dump_offsets_valid (ParsedDump (Some [mkSegment 0 5000000; mkSegment 0 30000]))
  /\ main log2_pow2 (ParsedDump (Some [mkSegment 0 5000000; mkSegment 0 30000]))
          (dump_keys 50 10)
     = Ok ([Discover None [mkRegion 0 30000 30000];
            Scan [mkRegion 0 30000 30000] {[sample_key]}],
           KeysFound {[sample_key]})
  /\ sample_key ∈ ({[sample_key]} : gset bytes)
  /\ len sample_key = AES_KEY_SIZE
  /\ exists i,
       2 <= i /\ i + AES_KEY_SIZE <= len (dump_keys 50 10)
       /\ sample_key = slice (dump_keys 50 10) i (i + AES_KEY_SIZE)
       /\ getitem (dump_keys 50 10) (i - 2) = Ok x00
       /\ getitem (dump_keys 50 10) (i - 1) = Ok x00
       /\ (exists b, getitem (dump_keys 50 10) i = Ok b /\ b <> x00).
Proof.
  assert (H1 : dump_offsets_valid
                 (ParsedDump (Some [mkSegment 0 5000000; mkSegment 0 30000]))).
  { repeat constructor; simpl; lia. }
  assert (H3 : sample_key ∈ ({[sample_key]} : gset bytes))
    by (apply elem_of_singleton; reflexivity).
  split; [exact H1|]. split; [exact main_on_truncated_dump|]. split; [exact H3|].
  exact (main_reported_keys log2_pow2 _ _ _ _ sample_key H1
           main_on_truncated_dump H3).
Defined.

(** ** Heuristic discovery: distance between forward regions *)

Lemma forward_regions_far_apart mm regions :
  find_regions_loose mm Forward = Ok regions ->
  StronglySorted region_far_before regions.
Proof.
  unfold find_regions_loose. destruct (len mm =? 0); [done|]. intros Hrun.
  destruct (forward_loop_invariant mm (len mm)
              (fun pos regions =>
                 0 <= pos /\ StronglySorted region_far_before regions
                 /\ Forall (fun r => region_end r + MIN_NULL_START_REGION_SIZE <= pos)
                           regions)) with
    (3 := Hrun) as (_ & _ & H & _); [| |done].
  - intros pos rs sn nn en (Hpos & Hsorted & Hends) _ Hsn Hsn1 Hnn Hnn1 _ Hen Hen1.
    destruct (find_found mm _ pos _ NULL_BLOCK_START_nonempty Hpos (eq_sym Hsn) Hsn1)
      as (Hs & _).
    assert (Hm : 0 < MIN_NULL_START_REGION_SIZE) by done.
    assert (Hm' : MIN_NULL_END_REGION_SIZE = MIN_NULL_START_REGION_SIZE) by done.
    destruct (find_found mm [x01] (sn + MIN_NULL_START_REGION_SIZE) nn
                ltac:(done) ltac:(lia) (eq_sym Hnn) Hnn1) as (Hn & _).
    destruct (find_found mm _ nn en NULL_BLOCK_END_nonempty ltac:(lia)
                (eq_sym Hen) Hen1) as (He & _).
    assert (Hends' : Forall (fun r => region_end r + MIN_NULL_START_REGION_SIZE
                                      <= en + MIN_NULL_START_REGION_SIZE) rs).
    { eapply Forall_impl; [exact Hends|]. simpl. intros r Hr. lia. }
    split; [lia|].
    destruct ((MIN_REGION_SIZE <? en - nn) && (en - nn <=? MAX_REGION_SIZE));
      [|done].
    split.
    + apply StronglySorted_app_2; [|done|repeat constructor].
      intros r r' Hr ->%list_elem_of_singleton. unfold region_far_before. simpl.
      rewrite Forall_forall in Hends. specialize (Hends r Hr). lia.
    + apply Forall_app. split; [done|]. apply Forall_singleton. simpl. lia.
  - repeat split; [lia|constructor|constructor].
Qed.

(** X20: of two regions of one forward pass, the later one starts at least
    two null blocks (MIN_NULL_END_REGION_SIZE + MIN_NULL_START_REGION_SIZE
    bytes) after the end of the earlier one. *)
Theorem forward_regions_apart mm regions (i j : nat) r r' :
  find_regions_loose mm Forward = Ok regions ->
  (i < j)%nat -> regions !! i = Some r -> regions !! j = Some r' ->
  region_end r + MIN_NULL_END_REGION_SIZE + MIN_NULL_START_REGION_SIZE
  <= region_start r'.
Proof.
  intros Hsorted%forward_regions_far_apart Hij Hi Hj.
  exact (StronglySorted_lookup region_far_before regions i j r r' Hsorted Hij Hi Hj).
Qed.

Lemma forward_regions_apart_witness :
  find_regions_loose dump_two_regions Forward
  = Ok [mkRegion 10000 35001 25001; mkRegion 55001 80002 25001]
  /\ region_end (mkRegion 10000 35001 25001)
     + MIN_NULL_END_REGION_SIZE + MIN_NULL_START_REGION_SIZE
     <= region_start (mkRegion 55001 80002 25001).
Proof.
  split; [exact forward_on_two_regions|].
  apply (forward_regions_apart dump_two_regions _ 0%nat 1%nat _ _
           forward_on_two_regions); [lia|reflexivity|reflexivity].
Defined.
